(** * CodeCheckup: the line alignment engine of [src/store/useCodeStore.ts]
    and its consumers.

    The development embeds [computeLineDiff], [calculateSimilarity] and
    [compareCode] of the store, and the [lineDiffs] memo of
    [src/components/CodeEditor.tsx], as executable functions, and proves the
    properties the specification states about them.  It then embeds the
    other actions of the store, the virtual scrolling of the editor, the
    handlers of [src/components/DiffNavigator.tsx], the navigation state of
    [src/pages/Home.tsx] and the markers of [DiffProgressBar], and proves
    what the code shows about them.

    Conventions of the embedding:
    - a JavaScript string is a [string] (a sequence of code units; the
      model keeps the units below 256);
    - array indices and lengths are [nat]; an array is a [list], read with
      stdpp's lookup;
    - the ratio [equalLength / totalLength] is an exact rational [Q].  The
      source compares its double-precision value with the double nearest to
      0.3.  For totals below 2^50 the two comparisons agree: a ratio above
      3/10 exceeds it by at least 1/(10 * total), far more than half a unit
      in the last place, and a ratio at or below 3/10 rounds to at most the
      double of 0.3 because rounding is monotone;
    - [result.unshift(e)] is [e :: result];
    - scroll offsets are whole numbers of pixels ([Z]);
    - what an action writes to [localStorage] as JSON is outside the model;
      the theme item and the class list of the document are modelled;
    - the [while] loop is a fuelled iteration of one step function; the
      fuel [m + n] is shown to be enough for the loop to leave through its
      own condition. *)

From Stdlib Require Import Ascii QArith Sorted.
From Stdlib Require String.
From stdpp Require Import base list strings gmap.

Local Open Scope nat_scope.
Local Open Scope stdpp_scope.

(** ** JavaScript strings: [trim] and [split('\n')] *)

(** WhiteSpace and LineTerminator code units (ECMAScript 12.2, 12.3) that
    fit in eight bits: TAB, LF, VT, FF, CR, SP and NBSP. *)
Definition is_white_space (c : ascii) : bool :=
  let n := nat_of_ascii c in
  (n =? 9) || (n =? 10) || (n =? 11) || (n =? 12) || (n =? 13)
  || (n =? 32) || (n =? 160).

Fixpoint trimStart (s : string) : string :=
  match s with
  | EmptyString => EmptyString
  | String c s' => if is_white_space c then trimStart s' else s
  end.

Fixpoint string_rev_append (s acc : string) : string :=
  match s with
  | EmptyString => acc
  | String c s' => string_rev_append s' (String c acc)
  end.

Definition string_rev (s : string) : string := string_rev_append s EmptyString.

Definition trimEnd (s : string) : string :=
  string_rev (trimStart (string_rev s)).

(** [String.prototype.trim] *)
Definition trim (s : string) : string := trimEnd (trimStart s).

(** The line feed, the separator of [split('\n')]. *)
Definition LF : ascii := ascii_of_nat 10.

(** [s.split('\n')]: the pieces between line feeds; never the empty array. *)
Fixpoint split_lines (s : string) : list string :=
  match s with
  | EmptyString => [EmptyString]
  | String c s' =>
      if Ascii.eqb c LF then EmptyString :: split_lines s'
      else match split_lines s' with
           | l :: ls => String c l :: ls
           | [] => [String c EmptyString]
           end
  end.

(** ** Character diffs *)

(** A diff-match-patch operation: the tuple [[op, text]] with [op] one of
    [-1] (delete), [0] (equal) and [1] (insert). *)
Definition Diff : Type := Z * string.

Definition DIFF_DELETE : Z := (-1)%Z.
Definition DIFF_INSERT : Z := 1%Z.
Definition DIFF_EQUAL : Z := 0%Z.

(** The text an edit script spells for its source (equal and delete runs)
    and for its destination (equal and insert runs). *)
Definition source_text (ds : list Diff) : string :=
  foldr (fun d acc => if (d.1 =? DIFF_INSERT)%Z then acc else d.2 +:+ acc)
        EmptyString ds.

Definition dest_text (ds : list Diff) : string :=
  foldr (fun d acc => if (d.1 =? DIFF_DELETE)%Z then acc else d.2 +:+ acc)
        EmptyString ds.

Definition well_formed_op (d : Diff) : Prop :=
  d.1 = DIFF_DELETE \/ d.1 = DIFF_EQUAL \/ d.1 = DIFF_INSERT.

(** The reconstruction invariant of an edit script for the pair [(a, b)]. *)
Definition reconstructs (ds : list Diff) (a b : string) : Prop :=
  Forall well_formed_op ds /\ source_text ds = a /\ dest_text ds = b.

(** ** Line diff entries *)

Inductive DiffType : Type := equal | insert | delete | modify.

Global Instance DiffType_eq_dec : EqDecision DiffType.
Proof. solve_decision. Defined.

Record LineDiffResult : Type := mkLineDiffResult {
  type : DiffType;
  originalLine : option string;
  modifiedLine : option string;
  originalIndex : option nat;
  modifiedIndex : option nat
}.

(** The four object literals of [computeLineDiff]. *)
Definition equal_entry (o m : string) (oi mi : nat) : LineDiffResult :=
  mkLineDiffResult equal (Some o) (Some m) (Some oi) (Some mi).

Definition modify_entry (o m : string) (oi mi : nat) : LineDiffResult :=
  mkLineDiffResult modify (Some o) (Some m) (Some oi) (Some mi).

Definition delete_entry (o : string) (oi : nat) : LineDiffResult :=
  mkLineDiffResult delete (Some o) None (Some oi) None.

Definition insert_entry (m : string) (mi : nat) : LineDiffResult :=
  mkLineDiffResult insert None (Some m) None (Some mi).

(** The state of the backtracking loop: [i], [j] and [result]. *)
Record Backtrack : Type := mkBacktrack {
  bt_i : nat;
  bt_j : nat;
  bt_result : list LineDiffResult
}.

(** [lines[k]] for an index the loops keep in range. *)
Definition line_at (lines : list string) (k : nat) : string :=
  default EmptyString (lines !! k).

(** [a.trim() === b.trim()] *)
Definition trim_eq (a b : string) : bool := String.eqb (trim a) (trim b).

(** ** The LCS table *)

Definition dp_table : Type := list (list nat).

(** [Array(m + 1).fill(null).map(() => Array(n + 1).fill(0))] *)
Definition dp_init (m n : nat) : dp_table :=
  replicate (S m) (replicate (S n) 0).

(** [dp[i][j]] *)
Definition dp_get (dp : dp_table) (i j : nat) : nat :=
  default 0 (dp !! i ≫= fun row => row !! j).

(** [dp[i][j] = v] *)
Definition dp_set (dp : dp_table) (i j v : nat) : dp_table :=
  alter (fun row => <[j := v]> row) i dp.

(** The body of the inner [for] loop. *)
Definition dp_cell (originalLines modifiedLines : list string)
    (dp : dp_table) (i j : nat) : dp_table :=
  if trim_eq (line_at originalLines (i - 1)) (line_at modifiedLines (j - 1))
  then dp_set dp i j (dp_get dp (i - 1) (j - 1) + 1)
  else dp_set dp i j (Nat.max (dp_get dp (i - 1) j) (dp_get dp i (j - 1))).

(** The two nested [for] loops, [i] from 1 to [m] and [j] from 1 to [n]. *)
Definition build_dp (originalLines modifiedLines : list string) : dp_table :=
  let m := length originalLines in
  let n := length modifiedLines in
  foldl (fun dp i =>
           foldl (fun dp j => dp_cell originalLines modifiedLines dp i j)
                 dp (seq 1 n))
        (dp_init m n) (seq 1 m).

(** The similarity threshold of [computeLineDiff], the literal [0.3]. *)
Definition SIMILARITY_THRESHOLD : Q := 3 # 10.

Definition gtb (a b : nat) : bool := b <? a.

Section Engine.

(** The diff-match-patch package is a dependency of the repository, not
    part of it: its two entry points are parameters of the model.
    [diff_cleanupSemantic] rewrites its argument in place; here it returns
    the rewritten array. *)
Variable diff_main : string -> string -> list Diff.
Variable diff_cleanupSemantic : list Diff -> list Diff.

(** The [forEach] of [calculateSimilarity]: [(totalLength, equalLength)]. *)
Definition similarity_lengths (diffs : list Diff) : nat * nat :=
  foldl (fun acc d =>
           (acc.1 + String.length d.2,
            if (d.1 =? 0)%Z then acc.2 + String.length d.2 else acc.2))
        (0, 0) diffs.

Definition calculateSimilarity (str1 str2 : string) : Q :=
  let diffs := diff_cleanupSemantic (diff_main str1 str2) in
  let totalLength := (similarity_lengths diffs).1 in
  let equalLength := (similarity_lengths diffs).2 in
  if 0 <? totalLength
  then (inject_Z (Z.of_nat equalLength) / inject_Z (Z.of_nat totalLength))%Q
  else 0%Q.

(** [similarity > 0.3] *)
Definition exceeds_threshold (similarity : Q) : bool :=
  negb (Qle_bool similarity SIMILARITY_THRESHOLD).

(** The condition of the [while] loop. *)
Definition backtrack_cond (st : Backtrack) : bool :=
  (0 <? bt_i st) || (0 <? bt_j st).

(** One iteration of the [while] loop, over the two documents and the
    table [dp]. *)
Definition backtrack_step (originalLines modifiedLines : list string)
    (dp : dp_table) (st : Backtrack) : Backtrack :=
  let i := bt_i st in
  let j := bt_j st in
  let result := bt_result st in
  if (0 <? i) && (0 <? j)
     && trim_eq (line_at originalLines (i - 1)) (line_at modifiedLines (j - 1))
  then
    mkBacktrack (i - 1) (j - 1)
      (equal_entry (line_at originalLines (i - 1))
                   (line_at modifiedLines (j - 1)) (i - 1) (j - 1) :: result)
  else if (0 <? i) && (0 <? j) then
    let originalLine := line_at originalLines (i - 1) in
    let modifiedLine := line_at modifiedLines (j - 1) in
    let similarity := calculateSimilarity originalLine modifiedLine in
    if exceeds_threshold similarity then
      mkBacktrack (i - 1) (j - 1)
        (modify_entry originalLine modifiedLine (i - 1) (j - 1) :: result)
    else if gtb (dp_get dp (i - 1) j) (dp_get dp i (j - 1)) then
      mkBacktrack (i - 1) j
        (delete_entry (line_at originalLines (i - 1)) (i - 1) :: result)
    else
      mkBacktrack i (j - 1)
        (insert_entry (line_at modifiedLines (j - 1)) (j - 1) :: result)
  else if 0 <? i then
    mkBacktrack (i - 1) j
      (delete_entry (line_at originalLines (i - 1)) (i - 1) :: result)
  else
    mkBacktrack i (j - 1)
      (insert_entry (line_at modifiedLines (j - 1)) (j - 1) :: result).

(** The [while] loop, cut after [fuel] iterations. *)
Fixpoint backtrack (originalLines modifiedLines : list string)
    (dp : dp_table) (fuel : nat) (st : Backtrack) : Backtrack :=
  match fuel with
  | 0 => st
  | S fuel' =>
      if backtrack_cond st
      then backtrack originalLines modifiedLines dp fuel'
             (backtrack_step originalLines modifiedLines dp st)
      else st
  end.

Definition computeLineDiff (originalLines modifiedLines : list string)
    : list LineDiffResult :=
  let m := length originalLines in
  let n := length modifiedLines in
  let dp := build_dp originalLines modifiedLines in
  bt_result (backtrack originalLines modifiedLines dp (m + n)
               (mkBacktrack m n [])).

(** ** The consumer in [CodeEditor.tsx] *)

Definition is_empty_string (s : string) : bool :=
  match s with EmptyString => true | String _ _ => false end.

(** [lines[i] || '']: a missing line reads as the empty string. *)
Definition line_or_empty (lines : list string) (i : nat) : string :=
  default EmptyString (lines !! i).

(** The [lineDiffs] memo of the editor showing [value] beside [otherCode].
    The source fills a sparse array, [diffs[i] = lineDiff] for the rows
    that differ; the model keeps one slot per row, [None] for a hole. *)
Definition CodeEditor_lineDiffs (value otherCode : string)
    : list (option (list Diff)) :=
  if is_empty_string otherCode || is_empty_string value then []
  else
    let currentLines := split_lines value in
    let otherLines := split_lines otherCode in
    let maxLines := Nat.max (length currentLines) (length otherLines) in
    (fun i =>
       let currentLine := line_or_empty currentLines i in
       let otherLine := line_or_empty otherLines i in
       if String.eqb currentLine otherLine then None
       else Some (diff_cleanupSemantic (diff_main currentLine otherLine)))
    <$> seq 0 maxLines.

(** [lineDiffs[actualLineIndex]] as [renderLineWithDiff] reads it:
    [None] is JavaScript's [undefined]. *)
Definition CodeEditor_diff_at (value otherCode : string) (k : nat)
    : option (list Diff) :=
  mjoin (CodeEditor_lineDiffs value otherCode !! k).

(** ** The store *)

(** [id] is [Date.now().toString()]; the model keeps the number. *)
Record HistoryRecord : Type := mkHistoryRecord {
  record_id : Z;
  timestamp : Z;
  original : string;
  modified : string;
  lang : string
}.

Record CodeStore : Type := mkCodeStore {
  originalCode : string;
  modifiedCode : string;
  diffLines : list nat;
  lineDiffs : list LineDiffResult;
  history : list HistoryRecord;
  isComparing : bool;
  selectedLanguage : string;
  isDarkMode : bool
}.

(** The initial state of the store, for a loaded history and theme. *)
Definition initial_store (h : list HistoryRecord) (dark : bool) : CodeStore :=
  mkCodeStore EmptyString EmptyString [] [] h false "javascript" dark.

Definition setOriginalCode (code : string) (s : CodeStore) : CodeStore :=
  mkCodeStore code (modifiedCode s) (diffLines s) (lineDiffs s) (history s)
    (isComparing s) (selectedLanguage s) (isDarkMode s).

Definition setModifiedCode (code : string) (s : CodeStore) : CodeStore :=
  mkCodeStore (originalCode s) code (diffLines s) (lineDiffs s) (history s)
    (isComparing s) (selectedLanguage s) (isDarkMode s).

(** [saveToHistory], with the two readings of [Date.now()] as arguments.
    The copy it writes to [localStorage] is outside the store's state. *)
Definition saveToHistory (now_id now_ts : Z) (s : CodeStore) : CodeStore :=
  if is_empty_string (trim (originalCode s))
     && is_empty_string (trim (modifiedCode s))
  then s
  else
    let newRecord :=
      mkHistoryRecord now_id now_ts (originalCode s) (modifiedCode s)
        (selectedLanguage s) in
    mkCodeStore (originalCode s) (modifiedCode s) (diffLines s) (lineDiffs s)
      (take 20 (newRecord :: history s))
      (isComparing s) (selectedLanguage s) (isDarkMode s).

(** The [forEach] of [compareCode]: the 1-based positions of the entries
    that are not [equal], pushed in order. *)
Definition changed_positions (diffResult : list LineDiffResult) : list nat :=
  foldl (fun acc p =>
           if decide (type p.2 = equal) then acc else acc ++ [p.1 + 1])
        [] (imap pair diffResult).

(** [[...new Set(xs)]]: the first occurrence of each value, in order. *)
Fixpoint set_spread (seen xs : list nat) : list nat :=
  match xs with
  | [] => []
  | x :: xs' =>
      if bool_decide (x ∈ seen) then set_spread seen xs'
      else x :: set_spread (x :: seen) xs'
  end.

Fixpoint sort_insert (x : nat) (sorted : list nat) : list nat :=
  match sorted with
  | [] => [x]
  | y :: ys => if x <=? y then x :: sorted else y :: sort_insert x ys
  end.

(** [xs.sort((a, b) => a - b)] *)
Definition sort_ascending (xs : list nat) : list nat :=
  foldr sort_insert [] xs.

(** [compareCode]: the store after the call.  [isComparing] is set to
    [true] on entry and back to [false] with the result, so only the final
    [false] shows here.  The model of [computeLineDiff] is total, so the
    [catch] branch of the source has no counterpart. *)
Definition compareCode (now_id now_ts : Z) (s : CodeStore) : CodeStore :=
  let originalLines := split_lines (originalCode s) in
  let modifiedLines := split_lines (modifiedCode s) in
  let diffResult := computeLineDiff originalLines modifiedLines in
  let positions := changed_positions diffResult in
  saveToHistory now_id now_ts
    (mkCodeStore (originalCode s) (modifiedCode s)
       (sort_ascending (set_spread [] positions)) diffResult
       (history s) false (selectedLanguage s) (isDarkMode s)).

End Engine.

(** ** Predicates of the specification *)

(** The kind/field invariant of an entry. *)
Definition entry_fields (e : LineDiffResult) : Prop :=
  match type e with
  | equal | modify =>
      is_Some (originalLine e) /\ is_Some (modifiedLine e)
      /\ is_Some (originalIndex e) /\ is_Some (modifiedIndex e)
  | insert =>
      originalLine e = None /\ is_Some (modifiedLine e)
      /\ originalIndex e = None /\ is_Some (modifiedIndex e)
  | delete =>
      is_Some (originalLine e) /\ modifiedLine e = None
      /\ is_Some (originalIndex e) /\ modifiedIndex e = None
  end.

(** An entry carries the lines its indices name, and a [modify] entry pairs
    two lines that differ after trimming. *)
Definition entry_sound (originalLines modifiedLines : list string)
    (e : LineDiffResult) : Prop :=
  originalLine e = originalIndex e ≫= (fun k => originalLines !! k)
  /\ modifiedLine e = modifiedIndex e ≫= (fun k => modifiedLines !! k)
  /\ (type e = modify ->
      forall o m, originalLine e = Some o -> modifiedLine e = Some m ->
                  trim_eq o m = false).

(** What the backtracking loop maintains: [result] accounts for the lines
    from [i] and from [j] on, in order. *)
Record aligned (originalLines modifiedLines : list string)
    (st : Backtrack) : Prop := mkAligned {
  aligned_i : bt_i st <= length originalLines;
  aligned_j : bt_j st <= length modifiedLines;
  aligned_original :
    omap originalLine (bt_result st) = drop (bt_i st) originalLines;
  aligned_modified :
    omap modifiedLine (bt_result st) = drop (bt_j st) modifiedLines;
  aligned_originalIndex :
    omap originalIndex (bt_result st)
    = seq (bt_i st) (length originalLines - bt_i st);
  aligned_modifiedIndex :
    omap modifiedIndex (bt_result st)
    = seq (bt_j st) (length modifiedLines - bt_j st);
  aligned_fields : Forall entry_fields (bt_result st);
  aligned_sound :
    Forall (entry_sound originalLines modifiedLines) (bt_result st)
}.

(** The number of entries of [l] on which the field [f] is defined. *)
Definition count_defined {A} (f : LineDiffResult -> option A)
    (l : list LineDiffResult) : nat :=
  length (filter (fun e => is_Some (f e)) l).

(** ** A reference character diff engine *)

Module Dmp.

Fixpoint common_prefix (a b : string) : string :=
  match a, b with
  | String c a', String d b' =>
      if Ascii.eqb c d then String c (common_prefix a' b') else EmptyString
  | _, _ => EmptyString
  end.

Definition common_suffix (a b : string) : string :=
  string_rev (common_prefix (string_rev a) (string_rev b)).

Fixpoint string_drop (n : nat) (s : string) : string :=
  match n, s with
  | S n', String _ s' => string_drop n' s'
  | _, _ => s
  end.

Fixpoint string_take (n : nat) (s : string) : string :=
  match n, s with
  | S n', String c s' => String c (string_take n' s')
  | _, _ => EmptyString
  end.

(** A run [[op, text]], left out when its text is empty. *)
Definition run (op : Z) (text : string) : list Diff :=
  if is_empty_string text then [] else [(op, text)].

(** Modelled from the spec: the character diff engine of section 4.1, which
    the source takes from the diff-match-patch package (not under src/).
    The spec asks for an edit script that reconstructs both strings and
    allows any near-minimal algorithm; this one keeps the common prefix and
    the common suffix as equal runs and spells the rest as one delete and
    one insert. *)
Definition diff_main (a b : string) : list Diff :=
  let p := common_prefix a b in
  let a1 := string_drop (String.length p) a in
  let b1 := string_drop (String.length p) b in
  let s := common_suffix a1 b1 in
  let a2 := string_take (String.length a1 - String.length s) a1 in
  let b2 := string_take (String.length b1 - String.length s) b1 in
  run DIFF_EQUAL p ++ run DIFF_DELETE a2 ++ run DIFF_INSERT b2
  ++ run DIFF_EQUAL s.

Definition is_edit (d : Diff) : bool := negb (d.1 =? DIFF_EQUAL)%Z.

(** The length below which a flanked equal run is absorbed. *)
Definition SHORT_RUN : nat := 4.

(** Modelled from the spec: the semantic cleanup of section 4.1, also from
    the diff-match-patch package.  An equal run shorter than [SHORT_RUN]
    with an edit on both sides is turned into a delete and an insert of the
    same text, which both reconstructions read as before. *)
Fixpoint diff_cleanupSemantic (ds : list Diff) : list Diff :=
  match ds with
  | [] => []
  | e1 :: rest =>
      match rest with
      | q :: (e2 :: _) as after =>
          if is_edit e1 && (q.1 =? DIFF_EQUAL)%Z
             && (String.length q.2 <? SHORT_RUN) && is_edit e2
          then e1 :: (DIFF_DELETE, q.2) :: (DIFF_INSERT, q.2)
                  :: diff_cleanupSemantic after
          else e1 :: diff_cleanupSemantic rest
      | _ => e1 :: diff_cleanupSemantic rest
      end
  end.

Definition similarity : string -> string -> Q :=
  calculateSimilarity diff_main diff_cleanupSemantic.

Definition align : list string -> list string -> list LineDiffResult :=
  computeLineDiff diff_main diff_cleanupSemantic.

End Dmp.

(** ** Further predicates on alignments *)

(** An entry that pairs an original line with a modified line. *)
Definition is_paired (e : LineDiffResult) : bool :=
  match type e with
  | equal | modify => true
  | insert | delete => false
  end.

Definition paired_count (l : list LineDiffResult) : nat :=
  length (filter (fun e => is_paired e = true) l).

(** Why an entry has its kind: an [equal] entry pairs two lines that are
    equal after trimming, a [modify] entry two lines that are not and whose
    similarity is above the threshold. *)
Definition entry_justified (diff_main : string -> string -> list Diff)
    (diff_cleanupSemantic : list Diff -> list Diff)
    (e : LineDiffResult) : Prop :=
  match type e with
  | equal =>
      exists o m, originalLine e = Some o /\ modifiedLine e = Some m
                  /\ trim_eq o m = true
  | modify =>
      exists o m, originalLine e = Some o /\ modifiedLine e = Some m
                  /\ trim_eq o m = false
                  /\ (SIMILARITY_THRESHOLD
                      < calculateSimilarity diff_main
                          diff_cleanupSemantic o m)%Q
  | insert | delete => True
  end.

(** The recurrence the table is meant to hold: the length of a longest
    common subsequence of the first [i] original and the first [j] modified
    lines, lines matching when they are equal after trimming. *)
Fixpoint lcs_len (originalLines modifiedLines : list string) (i : nat)
    : nat -> nat :=
  match i with
  | 0 => fun _ => 0
  | S i' =>
      fix row (j : nat) : nat :=
        match j with
        | 0 => 0
        | S j' =>
            if trim_eq (line_at originalLines i') (line_at modifiedLines j')
            then lcs_len originalLines modifiedLines i' j' + 1
            else Nat.max (lcs_len originalLines modifiedLines i' j) (row j')
        end
  end.

(** The table has [m + 1] rows of [n + 1] cells. *)
Definition dp_shape (m n : nat) (dp : dp_table) : Prop :=
  length dp = S m /\ Forall (fun row => length row = S n) dp.

(** The table after the cells up to [(i, j)] have been written, in the
    order of the two [for] loops: those cells hold the recurrence, the
    later ones still hold the initial 0. *)
Definition dp_filled (originalLines modifiedLines : list string)
    (i j : nat) (dp : dp_table) : Prop :=
  dp_shape (length originalLines) (length modifiedLines) dp
  /\ (forall a b,
        a <= length originalLines -> b <= length modifiedLines ->
        a < i \/ (a = i /\ b <= j) ->
        dp_get dp a b = lcs_len originalLines modifiedLines a b)
  /\ (forall a b, i < a \/ (a = i /\ j < b) -> dp_get dp a b = 0).

(** The same recurrence on two lists read from their heads. *)
Fixpoint lcs_list (xs : list string) : list string -> nat :=
  match xs with
  | [] => fun _ => 0
  | x :: xs' =>
      fix row (ys : list string) : nat :=
        match ys with
        | [] => 0
        | y :: ys' =>
            if trim_eq x y then lcs_list xs' ys' + 1
            else Nat.max (lcs_list xs' ys) (row ys')
        end
  end.

(** [s] and [t] are a common subsequence of [O] and [M]: subsequences of
    the same length whose lines are pairwise equal after trimming. *)
Definition common_subsequence (s t O M : list string) : Prop :=
  s `sublist_of` O /\ t `sublist_of` M
  /\ Forall2 (fun o m => trim_eq o m = true) s t.

(** ** [DiffNavigator.tsx] *)

(** [xs.findIndex(p)], counting from [k]: the index of the first element
    that satisfies [p], or [-1] when there is none. *)
Fixpoint findIndex_from {A} (p : A -> bool) (xs : list A) (k : Z) : Z :=
  match xs with
  | [] => (-1)%Z
  | x :: xs' => if p x then k else findIndex_from p xs' (k + 1)%Z
  end.

Definition findIndex {A} (p : A -> bool) (xs : list A) : Z :=
  findIndex_from p xs 0%Z.

(** [xs[k]] for a number [k]; [None] is [undefined]. *)
Definition array_at (xs : list nat) (k : Z) : option nat :=
  if (k <? 0)%Z then None else xs !! Z.to_nat k.

Definition currentDiffIndex (diffLines : list nat) (currentLine : nat) : Z :=
  findIndex (fun line => currentLine <=? line) diffLines.

Definition hasPrevious (diffLines : list nat) (currentLine : nat) : bool :=
  (0 <? currentDiffIndex diffLines currentLine)%Z.

Definition hasNext (diffLines : list nat) (currentLine : nat) : bool :=
  (currentDiffIndex diffLines currentLine <? Z.of_nat (length diffLines) - 1)%Z
  && negb (currentDiffIndex diffLines currentLine =? -1)%Z.

(** What a click handler does with the [onNavigate] callback: nothing, or
    one call with an array element ([None] for [undefined]). *)
Inductive Navigation : Type :=
  | no_call
  | onNavigate (lineNumber : option nat).

Definition goToPrevious (diffLines : list nat) (currentLine : nat)
    : Navigation :=
  if hasPrevious diffLines currentLine then
    let prevIndex := (currentDiffIndex diffLines currentLine - 1)%Z in
    onNavigate (array_at diffLines prevIndex)
  else no_call.

Definition goToNext (diffLines : list nat) (currentLine : nat) : Navigation :=
  if hasNext diffLines currentLine then
    let nextIndex := (currentDiffIndex diffLines currentLine + 1)%Z in
    onNavigate (array_at diffLines nextIndex)
  else if (currentDiffIndex diffLines currentLine =? -1)%Z
          && (0 <? length diffLines)
  then onNavigate (array_at diffLines 0%Z)
  else no_call.

(** ** Virtual scrolling in [CodeEditor.tsx] *)

(** Scroll offsets are whole numbers of pixels, so that
    [Math.floor(localScrollTop / ITEM_HEIGHT)] is the integer quotient. *)
Definition ITEM_HEIGHT : Z := 24.
Definition VISIBLE_ITEMS : Z := 30.
Definition BUFFER_SIZE : Z := 10.

Definition CodeEditor_startIndex (localScrollTop : Z) : Z :=
  Z.max 0 (localScrollTop / ITEM_HEIGHT - BUFFER_SIZE).

Definition CodeEditor_endIndex (startIndex totalLines : Z) : Z :=
  Z.min totalLines (startIndex + VISIBLE_ITEMS + BUFFER_SIZE * 2).

(** [xs.slice(from, to)] for two indices that are not negative. *)
Definition slice {A} (xs : list A) (from to : Z) : list A :=
  take (Z.to_nat to - Z.to_nat from) (drop (Z.to_nat from) xs).

Definition CodeEditor_visibleLines (value : string) (localScrollTop : Z)
    : list string :=
  let lines := split_lines value in
  let totalLines := Z.of_nat (length lines) in
  let startIndex := CodeEditor_startIndex localScrollTop in
  let endIndex := CodeEditor_endIndex startIndex totalLines in
  slice lines startIndex endIndex.

(** ** The scroll and navigation state of [Home.tsx] *)

Record HomeView : Type := mkHomeView {
  currentLine : nat;
  leftScrollTop : Z;
  leftScrollLeft : Z;
  rightScrollTop : Z;
  rightScrollLeft : Z
}.


Definition handleLeftScroll (scrollTop scrollLeft : Z) (v : HomeView)
    : HomeView :=
  mkHomeView (currentLine v) scrollTop scrollLeft scrollTop scrollLeft.

Definition handleRightScroll (scrollTop scrollLeft : Z) (v : HomeView)
    : HomeView :=
  mkHomeView (currentLine v) scrollTop scrollLeft scrollTop scrollLeft.

(** [totalLines] as [Home.tsx] passes it to the progress bar. *)
Definition Home_totalLines (originalCode modifiedCode : string) : nat :=
  Nat.max (length (split_lines originalCode))
          (length (split_lines modifiedCode)).

(** ** [DiffProgressBar] *)

(** The component renders nothing without differences or lines. *)
Definition DiffProgressBar_renders (diffLines : list nat) (totalLines : nat)
    : bool :=
  negb ((length diffLines =? 0) || (totalLines =? 0)).

(** [(lineNumber / totalLines) * 100], the [top] of a marker in percent. *)
Definition DiffProgressBar_percentage (lineNumber totalLines : nat) : Q :=
  (inject_Z (Z.of_nat lineNumber) / inject_Z (Z.of_nat totalLines) * 100)%Q.

(** [Math.abs(lineNumber - currentLine) < 3] *)
Definition DiffProgressBar_isActive (lineNumber current : nat) : bool :=
  (Z.abs (Z.of_nat lineNumber - Z.of_nat current) <? 3)%Z.

(** ** The other actions of the store *)

Definition clearCode (s : CodeStore) : CodeStore :=
  mkCodeStore EmptyString EmptyString [] [] (history s)
    (isComparing s) (selectedLanguage s) (isDarkMode s).

Definition loadFromHistory (record : HistoryRecord) (s : CodeStore)
    : CodeStore :=
  mkCodeStore (original record) (modified record) [] [] (history s)
    (isComparing s) (lang record) (isDarkMode s).

(** [clearHistory]; the [removeItem] on [localStorage] is outside the
    store's state. *)
Definition clearHistory (s : CodeStore) : CodeStore :=
  mkCodeStore (originalCode s) (modifiedCode s) (diffLines s) (lineDiffs s)
    [] (isComparing s) (selectedLanguage s) (isDarkMode s).

Definition setLanguage (language : string) (s : CodeStore) : CodeStore :=
  mkCodeStore (originalCode s) (modifiedCode s) (diffLines s) (lineDiffs s)
    (history s) (isComparing s) language (isDarkMode s).

(** [importedHistory.filter(record => !existingIds.has(record.id))] *)
Definition newRecords (importedHistory history : list HistoryRecord)
    : list HistoryRecord :=
  filter (fun record => record_id record ∉ (record_id <$> history))
         importedHistory.

Fixpoint insert_newest (x : HistoryRecord) (sorted : list HistoryRecord)
    : list HistoryRecord :=
  match sorted with
  | [] => [x]
  | y :: ys =>
      if (timestamp y <=? timestamp x)%Z then x :: sorted
      else y :: insert_newest x ys
  end.

(** [xs.sort((a, b) => b.timestamp - a.timestamp)]: newest first, records
    of equal timestamp in their order in [xs] (the sort is stable). *)
Definition sort_newest_first (xs : list HistoryRecord) : list HistoryRecord :=
  foldr insert_newest [] xs.

(** [importHistory], on the value [JSON.parse] gives for the file: [None]
    when parsing throws or the value is not an array, otherwise the array,
    taken to hold well-formed records.  The second component is the
    returned boolean; the copy written to [localStorage] is outside the
    store's state. *)
Definition importHistory (parsed : option (list HistoryRecord))
    (s : CodeStore) : CodeStore * bool :=
  match parsed with
  | None => (s, false)
  | Some importedHistory =>
      let mergedHistory :=
        take 20 (sort_newest_first
                   (newRecords importedHistory (history s) ++ history s)) in
      (mkCodeStore (originalCode s) (modifiedCode s) (diffLines s)
         (lineDiffs s) mergedHistory (isComparing s) (selectedLanguage s)
         (isDarkMode s), true)
  end.

(** *** The theme *)

(** The part of the browser the theme code touches: the item stored under
    ['theme'] in [localStorage] and the class list of the document
    element. *)
Record Browser : Type := mkBrowser {
  savedTheme : option string;
  classList : gset string
}.

Definition theme_name (dark : bool) : string :=
  if dark then "dark" else "light".

(** [classList.remove('light', 'dark'); classList.add(theme)] *)
Definition set_theme_class (theme : string) (classes : gset string)
    : gset string :=
  {[theme]} ∪ (classes ∖ {["light"; "dark"]}).

Definition toggleTheme (s : CodeStore) (b : Browser) : CodeStore * Browser :=
  let newIsDarkMode := negb (isDarkMode s) in
  let newTheme := theme_name newIsDarkMode in
  (mkCodeStore (originalCode s) (modifiedCode s) (diffLines s) (lineDiffs s)
     (history s) (isComparing s) (selectedLanguage s) newIsDarkMode,
   mkBrowser (Some newTheme) (set_theme_class newTheme (classList b))).

(** [getInitialTheme].  [storage] is what [localStorage.getItem('theme')]
    gives and [prefersDark] what the media query gives; [None] stands for a
    call that throws, which the [catch] answers with [true]. *)
Definition getInitialTheme (storage : option (option string))
    (prefersDark : option bool) : bool :=
  match storage with
  | None => true
  | Some item =>
      match item with
      | Some theme =>
          if negb (is_empty_string theme) then String.eqb theme "dark"
          else default true prefersDark
      | None => default true prefersDark
      end
  end.

(** *** Sequences of actions *)

(** The actions of the store, with the arguments a call supplies. *)
Inductive Action : Type :=
  | call_setOriginalCode (code : string)
  | call_setModifiedCode (code : string)
  | call_compareCode (now_id now_ts : Z)
  | call_clearCode
  | call_saveToHistory (now_id now_ts : Z)
  | call_loadFromHistory (record : HistoryRecord)
  | call_clearHistory
  | call_importHistory (parsed : option (list HistoryRecord))
  | call_setLanguage (language : string)
  | call_toggleTheme.

Section Actions.

Variable diff_main : string -> string -> list Diff.
Variable diff_cleanupSemantic : list Diff -> list Diff.

(** The store and the browser after one action. *)
Definition perform (a : Action) (w : CodeStore * Browser)
    : CodeStore * Browser :=
  match a with
  | call_setOriginalCode code => (setOriginalCode code w.1, w.2)
  | call_setModifiedCode code => (setModifiedCode code w.1, w.2)
  | call_compareCode now_id now_ts =>
      (compareCode diff_main diff_cleanupSemantic now_id now_ts w.1, w.2)
  | call_clearCode => (clearCode w.1, w.2)
  | call_saveToHistory now_id now_ts => (saveToHistory now_id now_ts w.1, w.2)
  | call_loadFromHistory record => (loadFromHistory record w.1, w.2)
  | call_clearHistory => (clearHistory w.1, w.2)
  | call_importHistory parsed => ((importHistory parsed w.1).1, w.2)
  | call_setLanguage language => (setLanguage language w.1, w.2)
  | call_toggleTheme => toggleTheme w.1 w.2
  end.

Definition perform_all (actions : list Action) (w : CodeStore * Browser)
    : CodeStore * Browser :=
  foldl (fun w a => perform a w) w actions.

End Actions.

(** The store and the browser agree on the theme: the stored item names
    it, and of the two theme classes the document carries exactly its. *)
Definition theme_consistent (w : CodeStore * Browser) : Prop :=
  savedTheme w.2 = Some (theme_name (isDarkMode w.1))
  /\ ("dark" ∈ classList w.2 <-> isDarkMode w.1 = true)
  /\ ("light" ∈ classList w.2 <-> isDarkMode w.1 = false).

(** What the loop keeps about the number of entries. *)
Definition counted (m n : nat) (st : Backtrack) : Prop :=
  length (bt_result st) + paired_count (bt_result st) + bt_i st + bt_j st
  = m + n
  /\ paired_count (bt_result st) + bt_i st <= m
  /\ paired_count (bt_result st) + bt_j st <= n.

(** The number of [equal] entries of an alignment. *)
Definition equal_count (l : list LineDiffResult) : nat :=
  length (filter (fun e => type e = equal) l).

(** ** Sample inputs *)

(** Two lines, ["a"] and ["foo();"], against the single line ["foo(x);"]. *)
Definition shifted_original : string := "a" +:+ String LF "foo();".
Definition shifted_modified : string := "foo(x);".

(** An original whose first line is the modified document's only line. *)
Definition repeated_original : list string := ["foo(x);"; "foo();"].
Definition repeated_modified : list string := ["foo(x);"].

(** Two history records with different ids. *)
Definition older_record : HistoryRecord :=
  mkHistoryRecord 100 100 "a" "b" "javascript".
Definition newer_record : HistoryRecord :=
  mkHistoryRecord 200 200 "c" "d" "python".

(** A store holding the one-line documents ["b"] and ["x"]. *)
Definition replaced_store : CodeStore :=
  setModifiedCode "x" (setOriginalCode "b" (initial_store [] true)).

(** A browser whose stored theme and document class are dark. *)
Definition dark_browser : Browser := mkBrowser (Some "dark") {["dark"]}.

(** * Properties *)

(** ** Lists and strings *)

Lemma line_at_lookup (lines : list string) (k : nat) (x : string) :
  lines !! k = Some x -> line_at lines k = x.
Proof. intros H. unfold line_at. by rewrite H. Qed.

Lemma lookup_pred (lines : list string) (i : nat) :
  0 < i -> i <= length lines ->
  exists x, lines !! (i - 1) = Some x
            /\ drop (i - 1) lines = x :: drop i lines.
Proof.
  intros Hi Hle.
  destruct (lookup_lt_is_Some_2 lines (i - 1)) as [x Hx]; [lia|].
  exists x. split; [done|].
  rewrite (drop_S _ _ _ Hx). do 2 f_equal. lia.
Qed.

Lemma seq_pred (i len : nat) :
  0 < i -> i <= len -> seq (i - 1) (len - (i - 1)) = (i - 1) :: seq i (len - i).
Proof.
  intros Hi Hle. replace (len - (i - 1)) with (S (len - i)) by lia.
  simpl. do 2 f_equal. lia.
Qed.

Lemma StronglySorted_seq (a n : nat) : StronglySorted lt (seq a n).
Proof.
  revert a. induction n as [|n IH]; intros a; simpl; constructor.
  - apply IH.
  - apply Forall_forall. intros x Hx. apply elem_of_seq in Hx. lia.
Qed.

Lemma count_defined_omap {A} (f : LineDiffResult -> option A)
    (l : list LineDiffResult) :
  count_defined f l = length (omap f l).
Proof.
  unfold count_defined. induction l as [|e l IH]; [done|].
  rewrite filter_cons. simpl. destruct (f e) as [a|] eqn:He.
  - rewrite decide_True by eauto. simpl. by rewrite IH.
  - rewrite decide_False by (intros [? ?]; congruence). done.
Qed.

Lemma trim_eq_refl (x : string) : trim_eq x x = true.
Proof. unfold trim_eq. apply String.eqb_refl. Qed.

Lemma trim_eq_false_neq (a b : string) : trim_eq a b = false -> a <> b.
Proof. intros H ->. rewrite trim_eq_refl in H. discriminate. Qed.

(** ** The backtracking loop keeps [aligned] *)

Section Alignment.

Variable diff_main : string -> string -> list Diff.
Variable diff_cleanupSemantic : list Diff -> list Diff.
Variables originalLines modifiedLines : list string.
Variable dp : dp_table.

Local Abbreviation step :=
  (backtrack_step diff_main diff_cleanupSemantic
     originalLines modifiedLines dp).
Local Abbreviation loop :=
  (backtrack diff_main diff_cleanupSemantic originalLines modifiedLines dp).
Local Abbreviation inv := (aligned originalLines modifiedLines).

Lemma aligned_init :
  inv (mkBacktrack (length originalLines) (length modifiedLines) []).
Proof.
  constructor; simpl; try done.
  - by rewrite drop_all.
  - by rewrite drop_all.
  - by rewrite Nat.sub_diag.
  - by rewrite Nat.sub_diag.
Qed.

(** An [equal] or [modify] entry in front: both indices step back. *)
Lemma aligned_pair (ty : DiffType) (i j : nat) (result : list LineDiffResult) :
  inv (mkBacktrack i j result) -> 0 < i -> 0 < j ->
  ty = equal
  \/ (ty = modify
      /\ trim_eq (line_at originalLines (i - 1))
                 (line_at modifiedLines (j - 1)) = false) ->
  inv (mkBacktrack (i - 1) (j - 1)
         (mkLineDiffResult ty (Some (line_at originalLines (i - 1)))
            (Some (line_at modifiedLines (j - 1))) (Some (i - 1)) (Some (j - 1))
          :: result)).
Proof.
  intros [Hi Hj Ho Hm Hoi Hmi Hf Hs] Hpi Hpj Hty; simpl in *.
  destruct (lookup_pred originalLines i Hpi Hi) as (x & Hx & Hdx).
  destruct (lookup_pred modifiedLines j Hpj Hj) as (y & Hy & Hdy).
  rewrite (line_at_lookup _ _ _ Hx), (line_at_lookup _ _ _ Hy) in *.
  constructor; simpl; try lia.
  - rewrite Hdx. f_equal. exact Ho.
  - rewrite Hdy. f_equal. exact Hm.
  - rewrite seq_pred by done. f_equal. exact Hoi.
  - rewrite seq_pred by done. f_equal. exact Hmi.
  - constructor; [|done].
    destruct Hty as [->|[-> _]]; repeat split; simpl; eauto.
  - constructor; [|done]. repeat split; simpl; try done.
    intros Hmod o m [= <-] [= <-].
    destruct Hty as [->|[_ Hne]]; [discriminate|done].
Qed.

(** A [delete] entry in front: the original index steps back. *)
Lemma aligned_delete (i j : nat) (result : list LineDiffResult) :
  inv (mkBacktrack i j result) -> 0 < i ->
  inv (mkBacktrack (i - 1) j
         (delete_entry (line_at originalLines (i - 1)) (i - 1) :: result)).
Proof.
  intros [Hi Hj Ho Hm Hoi Hmi Hf Hs] Hpi; simpl in *.
  destruct (lookup_pred originalLines i Hpi Hi) as (x & Hx & Hdx).
  rewrite (line_at_lookup _ _ _ Hx).
  constructor; simpl; try lia; try done.
  - rewrite Hdx. f_equal. exact Ho.
  - rewrite seq_pred by done. f_equal. exact Hoi.
  - constructor; [|done]. repeat split; simpl; eauto.
  - constructor; [|done]. repeat split; simpl; try done.
Qed.

(** An [insert] entry in front: the modified index steps back. *)
Lemma aligned_insert (i j : nat) (result : list LineDiffResult) :
  inv (mkBacktrack i j result) -> 0 < j ->
  inv (mkBacktrack i (j - 1)
         (insert_entry (line_at modifiedLines (j - 1)) (j - 1) :: result)).
Proof.
  intros [Hi Hj Ho Hm Hoi Hmi Hf Hs] Hpj; simpl in *.
  destruct (lookup_pred modifiedLines j Hpj Hj) as (y & Hy & Hdy).
  rewrite (line_at_lookup _ _ _ Hy).
  constructor; simpl; try lia; try done.
  - rewrite Hdy. f_equal. exact Hm.
  - rewrite seq_pred by done. f_equal. exact Hmi.
  - constructor; [|done]. repeat split; simpl; eauto.
  - constructor; [|done]. repeat split; simpl; try done.
Qed.

Lemma backtrack_step_aligned (st : Backtrack) :
  inv st -> backtrack_cond st = true -> inv (step st).
Proof.
  destruct st as [i j result]. unfold backtrack_cond, backtrack_step; simpl.
  intros Hinv Hcond.
  destruct (0 <? i) eqn:Hi; destruct (0 <? j) eqn:Hj; simpl in *;
    try discriminate;
    try (apply Nat.ltb_lt in Hi); try (apply Nat.ltb_lt in Hj).
  - destruct (trim_eq _ _) eqn:Heq.
    + apply (aligned_pair equal); auto.
    + destruct (exceeds_threshold _).
      * apply (aligned_pair modify); auto.
      * destruct (gtb _ _); [by apply aligned_delete | by apply aligned_insert].
  - by apply aligned_delete.
  - by apply aligned_insert.
Qed.

Lemma backtrack_step_decreases (st : Backtrack) :
  backtrack_cond st = true ->
  bt_i (step st) + bt_j (step st) < bt_i st + bt_j st.
Proof.
  destruct st as [i j result]. unfold backtrack_cond, backtrack_step; simpl.
  intros Hcond.
  destruct (0 <? i) eqn:Hi; destruct (0 <? j) eqn:Hj; simpl in *;
    try discriminate;
    try (apply Nat.ltb_lt in Hi); try (apply Nat.ltb_lt in Hj);
    repeat (match goal with |- context [if ?b then _ else _] => destruct b end);
    simpl; lia.
Qed.

(** With fuel for every remaining line the loop leaves through its own
    condition, in an aligned state. *)
Lemma backtrack_aligned (fuel : nat) (st : Backtrack) :
  inv st -> bt_i st + bt_j st <= fuel ->
  inv (loop fuel st) /\ backtrack_cond (loop fuel st) = false.
Proof.
  revert st. induction fuel as [|fuel IH]; intros st Hinv Hfuel; simpl.
  - split; [done|]. unfold backtrack_cond.
    replace (bt_i st) with 0 by lia. by replace (bt_j st) with 0 by lia.
  - destruct (backtrack_cond st) eqn:Hcond; [|done].
    apply IH; [by apply backtrack_step_aligned|].
    pose proof (backtrack_step_decreases st Hcond). lia.
Qed.

Lemma backtrack_cond_false (st : Backtrack) :
  backtrack_cond st = false -> bt_i st = 0 /\ bt_j st = 0.
Proof.
  unfold backtrack_cond. intros H. apply orb_false_iff in H as [Hi Hj].
  apply Nat.ltb_ge in Hi, Hj. lia.
Qed.

End Alignment.

(** ** The alignment as a whole *)

Section Claims.

Variable diff_main : string -> string -> list Diff.
Variable diff_cleanupSemantic : list Diff -> list Diff.

(** The loop of [computeLineDiff] ends with both indices at zero, and its
    result is aligned with the whole of both documents. *)
Lemma computeLineDiff_aligned (originalLines modifiedLines : list string) :
  aligned originalLines modifiedLines
    (mkBacktrack 0 0
       (computeLineDiff diff_main diff_cleanupSemantic
          originalLines modifiedLines)).
Proof.
  unfold computeLineDiff.
  set (dp := build_dp originalLines modifiedLines).
  set (st0 := mkBacktrack (length originalLines) (length modifiedLines) []).
  destruct (backtrack_aligned diff_main diff_cleanupSemantic
              originalLines modifiedLines dp
              (length originalLines + length modifiedLines) st0)
    as [Hinv Hcond]; [apply aligned_init | done |].
  apply backtrack_cond_false in Hcond as [Hi Hj].
  destruct (backtrack diff_main diff_cleanupSemantic
              originalLines modifiedLines dp _ st0) as [i j result].
  simpl in *. by subst.
Qed.

(** The fuel [m + n] is never what stops the loop. *)
Lemma computeLineDiff_loop_exits (originalLines modifiedLines : list string) :
  backtrack_cond
    (backtrack diff_main diff_cleanupSemantic originalLines modifiedLines
       (build_dp originalLines modifiedLines)
       (length originalLines + length modifiedLines)
       (mkBacktrack (length originalLines) (length modifiedLines) []))
  = false.
Proof.
  apply backtrack_aligned; [apply aligned_init | done].
Qed.

(** C1. Line-count conservation: the result has exactly [len(original)]
    entries with [originalLine] defined and [len(modified)] entries with
    [modifiedLine] defined, and those entries, read in output order, spell
    the original and the modified document. *)
Theorem computeLineDiff_conserves_lines
    (originalLines modifiedLines : list string) :
  count_defined originalLine
    (computeLineDiff diff_main diff_cleanupSemantic
       originalLines modifiedLines)
  = length originalLines
  /\ count_defined modifiedLine
       (computeLineDiff diff_main diff_cleanupSemantic
          originalLines modifiedLines)
     = length modifiedLines
  /\ omap originalLine
       (computeLineDiff diff_main diff_cleanupSemantic
          originalLines modifiedLines)
     = originalLines
  /\ omap modifiedLine
       (computeLineDiff diff_main diff_cleanupSemantic
          originalLines modifiedLines)
     = modifiedLines.
Proof.
  destruct (computeLineDiff_aligned originalLines modifiedLines)
    as [_ _ Ho Hm _ _ _ _]. simpl in Ho, Hm. rewrite drop_0 in Ho, Hm.
  rewrite !count_defined_omap, Ho, Hm. done.
Qed.

(** C5. Every entry of the result satisfies the kind/field invariant:
    [equal] and [modify] entries define all four fields, [insert] entries
    only [modifiedLine] and [modifiedIndex], [delete] entries only
    [originalLine] and [originalIndex]. *)
Theorem computeLineDiff_entry_fields
    (originalLines modifiedLines : list string) :
  Forall entry_fields
    (computeLineDiff diff_main diff_cleanupSemantic
       originalLines modifiedLines).
Proof.
  apply (aligned_fields _ _ _
           (computeLineDiff_aligned originalLines modifiedLines)).
Qed.

(** C6. Monotonic indices: the [originalIndex] values of the entries that
    define one are strictly increasing in output order, and so are the
    [modifiedIndex] values. *)
Theorem computeLineDiff_indices_increase
    (originalLines modifiedLines : list string) :
  StronglySorted lt
    (omap originalIndex
       (computeLineDiff diff_main diff_cleanupSemantic
          originalLines modifiedLines))
  /\ StronglySorted lt
       (omap modifiedIndex
          (computeLineDiff diff_main diff_cleanupSemantic
             originalLines modifiedLines)).
Proof.
  destruct (computeLineDiff_aligned originalLines modifiedLines)
    as [_ _ _ _ Hoi Hmi _ _]. simpl in Hoi, Hmi.
  rewrite Hoi, Hmi. split; apply StronglySorted_seq.
Qed.

(** The indices are exactly the positions of the two documents. *)
Lemma computeLineDiff_indices (originalLines modifiedLines : list string) :
  omap originalIndex
    (computeLineDiff diff_main diff_cleanupSemantic
       originalLines modifiedLines)
  = seq 0 (length originalLines)
  /\ omap modifiedIndex
       (computeLineDiff diff_main diff_cleanupSemantic
          originalLines modifiedLines)
     = seq 0 (length modifiedLines).
Proof.
  destruct (computeLineDiff_aligned originalLines modifiedLines)
    as [_ _ _ _ Hoi Hmi _ _]. simpl in Hoi, Hmi.
  by rewrite Nat.sub_0_r in Hoi, Hmi.
Qed.

(** On two equal documents every step is the [equal] branch. *)
Lemma backtrack_identity (X : list string) (dp : dp_table) (i : nat) :
  forall (fuel : nat) (acc : list LineDiffResult),
    i <= length X -> i <= fuel ->
    backtrack diff_main diff_cleanupSemantic X X dp fuel (mkBacktrack i i acc)
    = mkBacktrack 0 0 (imap (fun k x => equal_entry x x k k) (take i X) ++ acc).
Proof.
  induction i as [|i IH]; intros fuel acc Hlen Hfuel.
  - destruct fuel; done.
  - destruct fuel as [|fuel]; [lia|].
    destruct (lookup_lt_is_Some_2 X i) as [x Hx]; [lia|].
    simpl. unfold backtrack_step; simpl.
    rewrite Nat.sub_0_r, trim_eq_refl, (line_at_lookup _ _ _ Hx).
    rewrite IH by lia.
    rewrite (take_S_r _ _ _ Hx), imap_app, <- app_assoc. simpl.
    rewrite length_take_le by lia. by rewrite Nat.add_0_r.
Qed.

(** C7. Identity: [computeLineDiff(X, X)] is [len(X)] entries, all
    [equal], entry [k] pairing line [k] with itself at indices [k], in
    document order. *)
Theorem computeLineDiff_identity (X : list string) :
  computeLineDiff diff_main diff_cleanupSemantic X X
  = imap (fun k x => equal_entry x x k k) X.
Proof.
  unfold computeLineDiff. rewrite backtrack_identity by lia.
  simpl. by rewrite firstn_all, app_nil_r.
Qed.

(** With no original line left every step is the last [insert] branch. *)
Lemma backtrack_all_insert (M : list string) (dp : dp_table) (j : nat) :
  forall (fuel : nat) (acc : list LineDiffResult),
    j <= length M -> j <= fuel ->
    backtrack diff_main diff_cleanupSemantic [] M dp fuel (mkBacktrack 0 j acc)
    = mkBacktrack 0 0 (imap (fun k x => insert_entry x k) (take j M) ++ acc).
Proof.
  induction j as [|j IH]; intros fuel acc Hlen Hfuel.
  - destruct fuel; done.
  - destruct fuel as [|fuel]; [lia|].
    destruct (lookup_lt_is_Some_2 M j) as [x Hx]; [lia|].
    simpl. unfold backtrack_step; simpl.
    rewrite Nat.sub_0_r, (line_at_lookup _ _ _ Hx).
    rewrite IH by lia.
    rewrite (take_S_r _ _ _ Hx), imap_app, <- app_assoc. simpl.
    rewrite length_take_le by lia. by rewrite Nat.add_0_r.
Qed.

(** C8. Empty original: [computeLineDiff([], M)] is [len(M)] [insert]
    entries, entry [k] carrying line [k] of [M], in document order; and
    [computeLineDiff([], [])] is the empty sequence. *)
Theorem computeLineDiff_empty_original (M : list string) :
  computeLineDiff diff_main diff_cleanupSemantic [] M
  = imap (fun k x => insert_entry x k) M
  /\ length (computeLineDiff diff_main diff_cleanupSemantic [] M) = length M
  /\ computeLineDiff diff_main diff_cleanupSemantic [] [] = [].
Proof.
  assert (H : forall L, computeLineDiff diff_main diff_cleanupSemantic [] L
                        = imap (fun k x => insert_entry x k) L).
  { intros L. unfold computeLineDiff. simpl length.
    rewrite backtrack_all_insert by (simpl; lia).
    simpl. by rewrite firstn_all, app_nil_r. }
  split; [apply H|]. split; [|apply (H [])].
  by rewrite H, length_imap.
Qed.

(** ** Single steps of the backtracking loop *)

Lemma exceeds_threshold_true (q : Q) :
  (SIMILARITY_THRESHOLD < q)%Q -> exceeds_threshold q = true.
Proof.
  intros Hlt. unfold exceeds_threshold.
  destruct (Qle_bool q SIMILARITY_THRESHOLD) eqn:Hle; [|done].
  apply Qle_bool_iff in Hle. by apply Qlt_not_le in Hlt.
Qed.

Lemma exceeds_threshold_false (q : Q) :
  (q <= SIMILARITY_THRESHOLD)%Q -> exceeds_threshold q = false.
Proof.
  intros Hle. unfold exceeds_threshold.
  apply Qle_bool_iff in Hle. by rewrite Hle.
Qed.

(** C4. At a step with both indices positive, the two candidate lines
    unequal after trimming and their similarity strictly above 0.3, the
    loop puts a [modify] entry pairing exactly these two lines in front of
    the result and decrements both indices, whatever the table [dp] holds. *)
Theorem backtrack_step_modify (originalLines modifiedLines : list string)
    (dp : dp_table) (i j : nat) (result : list LineDiffResult)
    (o m : string) :
  0 < i -> 0 < j ->
  originalLines !! (i - 1) = Some o ->
  modifiedLines !! (j - 1) = Some m ->
  trim_eq o m = false ->
  (SIMILARITY_THRESHOLD
   < calculateSimilarity diff_main diff_cleanupSemantic o m)%Q ->
  backtrack_step diff_main diff_cleanupSemantic originalLines modifiedLines dp
    (mkBacktrack i j result)
  = mkBacktrack (i - 1) (j - 1) (modify_entry o m (i - 1) (j - 1) :: result).
Proof.
  intros Hi Hj Ho Hm Hne Hsim. unfold backtrack_step; simpl.
  apply Nat.ltb_lt in Hi, Hj.
  rewrite Hi, Hj, (line_at_lookup _ _ _ Ho), (line_at_lookup _ _ _ Hm), Hne.
  simpl. by rewrite exceeds_threshold_true.
Qed.

(** At a step with both indices positive, the lines unequal after trimming
    and their similarity at or below 0.3, the table decides: [delete] when
    [dp[i-1][j]] is strictly greater than [dp[i][j-1]], [insert] otherwise. *)
Lemma backtrack_step_table (originalLines modifiedLines : list string)
    (dp : dp_table) (i j : nat) (result : list LineDiffResult)
    (o m : string) :
  0 < i -> 0 < j ->
  originalLines !! (i - 1) = Some o ->
  modifiedLines !! (j - 1) = Some m ->
  trim_eq o m = false ->
  (calculateSimilarity diff_main diff_cleanupSemantic o m
   <= SIMILARITY_THRESHOLD)%Q ->
  backtrack_step diff_main diff_cleanupSemantic originalLines modifiedLines dp
    (mkBacktrack i j result)
  = if gtb (dp_get dp (i - 1) j) (dp_get dp i (j - 1))
    then mkBacktrack (i - 1) j (delete_entry o (i - 1) :: result)
    else mkBacktrack i (j - 1) (insert_entry m (j - 1) :: result).
Proof.
  intros Hi Hj Ho Hm Hne Hsim. unfold backtrack_step; simpl.
  apply Nat.ltb_lt in Hi, Hj.
  rewrite Hi, Hj, (line_at_lookup _ _ _ Ho), (line_at_lookup _ _ _ Hm), Hne.
  simpl. by rewrite exceeds_threshold_false.
Qed.

(** C3, as amended. At a step with both indices positive, the lines unequal
    after trimming, their similarity at or below 0.3 and
    [dp[i-1][j] = dp[i][j-1]], the entry put in front of the result is an
    [insert] of the modified line and the modified index is decremented:
    ties favour [insert]. *)
Theorem backtrack_step_tie_inserts (originalLines modifiedLines : list string)
    (dp : dp_table) (i j : nat) (result : list LineDiffResult)
    (o m : string) :
  0 < i -> 0 < j ->
  originalLines !! (i - 1) = Some o ->
  modifiedLines !! (j - 1) = Some m ->
  trim_eq o m = false ->
  (calculateSimilarity diff_main diff_cleanupSemantic o m
   <= SIMILARITY_THRESHOLD)%Q ->
  dp_get dp (i - 1) j = dp_get dp i (j - 1) ->
  backtrack_step diff_main diff_cleanupSemantic originalLines modifiedLines dp
    (mkBacktrack i j result)
  = mkBacktrack i (j - 1) (insert_entry m (j - 1) :: result).
Proof.
  intros Hi Hj Ho Hm Hne Hsim Htie.
  rewrite (backtrack_step_table _ _ _ _ _ _ o m) by done.
  unfold gtb. rewrite Htie, Nat.ltb_irrefl. done.
Qed.

(** The [delete] branch needs a strictly greater [dp[i-1][j]]. *)
Lemma backtrack_step_strict_deletes (originalLines modifiedLines : list string)
    (dp : dp_table) (i j : nat) (result : list LineDiffResult)
    (o m : string) :
  0 < i -> 0 < j ->
  originalLines !! (i - 1) = Some o ->
  modifiedLines !! (j - 1) = Some m ->
  trim_eq o m = false ->
  (calculateSimilarity diff_main diff_cleanupSemantic o m
   <= SIMILARITY_THRESHOLD)%Q ->
  dp_get dp i (j - 1) < dp_get dp (i - 1) j ->
  backtrack_step diff_main diff_cleanupSemantic originalLines modifiedLines dp
    (mkBacktrack i j result)
  = mkBacktrack (i - 1) j (delete_entry o (i - 1) :: result).
Proof.
  intros Hi Hj Ho Hm Hne Hsim Hgt.
  rewrite (backtrack_step_table _ _ _ _ _ _ o m) by done.
  unfold gtb. apply Nat.ltb_lt in Hgt. by rewrite Hgt.
Qed.

(** ** Similarity of two empty strings *)

Lemma append_empty (a b : string) :
  a +:+ b = EmptyString -> a = EmptyString /\ b = EmptyString.
Proof. destruct a; simpl; [done | discriminate]. Qed.

Lemma reconstructs_empty_texts (ds : list Diff) :
  reconstructs ds EmptyString EmptyString ->
  Forall (fun d => d.2 = EmptyString) ds.
Proof.
  intros (Hwf & Hsrc & Hdst). induction Hwf as [|[op text] ds Hop Hwf IH].
  - constructor.
  - unfold source_text, dest_text in Hsrc, Hdst. simpl in Hsrc, Hdst.
    fold (source_text ds) in Hsrc. fold (dest_text ds) in Hdst.
    destruct Hop as [Hop|[Hop|Hop]]; simpl in Hop; subst op; simpl in *.
    + apply append_empty in Hsrc as [-> Hsrc]. constructor; auto.
    + apply append_empty in Hsrc as [-> Hsrc].
      apply append_empty in Hdst as [_ Hdst]. constructor; auto.
    + apply append_empty in Hdst as [-> Hdst]. constructor; auto.
Qed.

Lemma similarity_lengths_empty_texts (ds : list Diff) :
  Forall (fun d => d.2 = EmptyString) ds -> similarity_lengths ds = (0, 0).
Proof.
  unfold similarity_lengths. generalize (0, 0).
  intros acc H. revert acc.
  induction H as [|[op text] ds Hd _ IH]; intros [t e]; simpl; [done|].
  simpl in Hd. subst text. rewrite IH. simpl.
  rewrite Nat.add_0_r. by destruct (op =? 0)%Z; rewrite ?Nat.add_0_r.
Qed.

(** C2, as amended. For every character diff engine whose script for two
    empty strings satisfies the reconstruction invariant,
    [calculateSimilarity("", "")] is 0: the total length is 0 and the guard
    [totalLength > 0 ? ... : 0] answers 0. *)
Theorem calculateSimilarity_empty_is_zero :
  reconstructs (diff_cleanupSemantic (diff_main EmptyString EmptyString))
    EmptyString EmptyString ->
  calculateSimilarity diff_main diff_cleanupSemantic EmptyString EmptyString
  = 0%Q.
Proof.
  intros Hrec. unfold calculateSimilarity.
  rewrite (similarity_lengths_empty_texts _ (reconstructs_empty_texts _ Hrec)).
  done.
Qed.

(** ** The editor's character diffs *)

Lemma is_empty_string_false (s : string) :
  s <> EmptyString -> is_empty_string s = false.
Proof. by destruct s. Qed.

(** Row [k] of the editor's memo, when both documents are non-empty and
    their lines [k] exist and differ. *)
Lemma CodeEditor_diff_at_row (value otherCode : string) (k : nat)
    (a b : string) :
  value <> EmptyString -> otherCode <> EmptyString ->
  split_lines value !! k = Some a ->
  split_lines otherCode !! k = Some b ->
  a <> b ->
  CodeEditor_diff_at diff_main diff_cleanupSemantic value otherCode k
  = Some (diff_cleanupSemantic (diff_main a b)).
Proof.
  intros Hv Ho Ha Hb Hne. unfold CodeEditor_diff_at, CodeEditor_lineDiffs.
  rewrite (is_empty_string_false _ Hv), (is_empty_string_false _ Ho). simpl.
  rewrite list_lookup_fmap, lookup_seq_lt.
  - simpl. unfold line_or_empty. rewrite Ha, Hb. simpl.
    apply String.eqb_neq in Hne. by rewrite Hne.
  - apply lookup_lt_Some in Ha. lia.
Qed.

(** A [modify] entry of the alignment names two existing lines that differ. *)
Lemma computeLineDiff_modify_lines (originalLines modifiedLines : list string)
    (e : LineDiffResult) (ko km : nat) :
  e ∈ computeLineDiff diff_main diff_cleanupSemantic
        originalLines modifiedLines ->
  type e = modify ->
  originalIndex e = Some ko -> modifiedIndex e = Some km ->
  exists o m,
    originalLine e = Some o /\ modifiedLine e = Some m
    /\ originalLines !! ko = Some o /\ modifiedLines !! km = Some m
    /\ o <> m.
Proof.
  intros Hin Hty Hko Hkm.
  pose proof (computeLineDiff_aligned originalLines modifiedLines) as Hal.
  pose proof (aligned_fields _ _ _ Hal) as Hf.
  pose proof (aligned_sound _ _ _ Hal) as Hs. simpl in Hf, Hs.
  rewrite Forall_forall in Hf, Hs.
  specialize (Hf e Hin). specialize (Hs e Hin).
  unfold entry_fields in Hf. rewrite Hty in Hf.
  destruct Hf as ([o Ho] & [m Hm] & _).
  destruct Hs as (Hso & Hsm & Hne).
  rewrite Ho, Hko in Hso. rewrite Hm, Hkm in Hsm. simpl in Hso, Hsm.
  exists o, m. repeat split; try done.
  apply trim_eq_false_neq. by apply Hne.
Qed.

(** C9, as amended. The editor pairs line [k] of its document with line [k]
    of the other document.  For a [modify] entry whose [originalIndex] and
    [modifiedIndex] are the same [k], in two non-empty documents, the diff
    the left editor holds for row [k] is the character diff between the
    entry's [originalLine] and [modifiedLine], and the right editor holds
    the diff between [modifiedLine] and [originalLine]. *)
Theorem CodeEditor_diff_of_modify_same_row (originalCode modifiedCode : string)
    (e : LineDiffResult) (k : nat) :
  originalCode <> EmptyString -> modifiedCode <> EmptyString ->
  e ∈ computeLineDiff diff_main diff_cleanupSemantic
        (split_lines originalCode) (split_lines modifiedCode) ->
  type e = modify ->
  originalIndex e = Some k -> modifiedIndex e = Some k ->
  exists o m,
    originalLine e = Some o /\ modifiedLine e = Some m
    /\ CodeEditor_diff_at diff_main diff_cleanupSemantic
         originalCode modifiedCode k
       = Some (diff_cleanupSemantic (diff_main o m))
    /\ CodeEditor_diff_at diff_main diff_cleanupSemantic
         modifiedCode originalCode k
       = Some (diff_cleanupSemantic (diff_main m o)).
Proof.
  intros Hoc Hmc Hin Hty Hko Hkm.
  destruct (computeLineDiff_modify_lines _ _ e k k Hin Hty Hko Hkm)
    as (o & m & Ho & Hm & Hlo & Hlm & Hne).
  exists o, m. repeat split; try done.
  - by apply CodeEditor_diff_at_row.
  - by apply CodeEditor_diff_at_row.
Qed.

(** ** The store *)

(** C10. When [originalCode] and [modifiedCode] are both the empty string,
    [compareCode] stores a single [equal] entry pairing two empty lines at
    indices 0 (splitting the empty string gives one empty line), and an
    empty [diffLines]. *)
Theorem compareCode_both_empty (now_id now_ts : Z) (s : CodeStore) :
  originalCode s = EmptyString -> modifiedCode s = EmptyString ->
  lineDiffs (compareCode diff_main diff_cleanupSemantic now_id now_ts s)
  = [equal_entry EmptyString EmptyString 0 0]
  /\ diffLines (compareCode diff_main diff_cleanupSemantic now_id now_ts s)
     = [].
Proof.
  destruct s as [oc mc dl ld h ic sl dm]. simpl.
  intros -> ->. split; reflexivity.
Qed.

End Claims.

(** ** The positions [compareCode] stores for navigation *)

Section Navigation.

Variable diff_main : string -> string -> list Diff.
Variable diff_cleanupSemantic : list Diff -> list Diff.

(** The [forEach] pushes strictly increasing positions. *)
Lemma changed_positions_from (r : list LineDiffResult) :
  forall (k0 : nat) (acc : list nat),
    StronglySorted lt acc -> Forall (fun x => x <= k0) acc ->
    StronglySorted lt
      (foldl (fun acc p =>
                if decide (type p.2 = equal) then acc else acc ++ [p.1 + 1])
             acc (imap (fun k e => (k0 + k, e)) r)).
Proof.
  induction r as [|e r IH]; intros k0 acc Hsorted Hle; simpl; [done|].
  rewrite (imap_ext _ (fun k e => (S k0 + k, e)))
    by (intros; simpl; f_equal; lia).
  apply IH.
  - destruct (decide (type e = equal)); [done|].
    clear IH. induction Hsorted as [|x l Hl IHl Hx]; simpl.
    + repeat constructor.
    + apply Forall_cons in Hle as [Hx0 Hle]. constructor; [by apply IHl|].
      apply Forall_app. split; [done|]. constructor; [lia | constructor].
  - destruct (decide (type e = equal)).
    + eapply Forall_impl; [exact Hle|]. simpl. intros. lia.
    + apply Forall_app. split.
      * eapply Forall_impl; [exact Hle|]. simpl. intros. lia.
      * constructor; [simpl; lia | constructor].
Qed.

Lemma changed_positions_sorted (r : list LineDiffResult) :
  StronglySorted lt (changed_positions r).
Proof.
  unfold changed_positions.
  rewrite (imap_ext _ (fun k e => (0 + k, e))) by done.
  apply changed_positions_from; constructor.
Qed.

Lemma StronglySorted_lt_NoDup (l : list nat) : StronglySorted lt l -> NoDup l.
Proof.
  induction 1 as [|x l Hl IH Hx]; constructor; [|done].
  intros Hin. rewrite Forall_forall in Hx. specialize (Hx x Hin). lia.
Qed.

Lemma set_spread_NoDup (l : list nat) :
  forall seen : list nat,
    NoDup l -> (forall x, x ∈ l -> x ∉ seen) -> set_spread seen l = l.
Proof.
  induction l as [|x l IH]; intros seen Hnd Hfresh; simpl; [done|].
  apply NoDup_cons in Hnd as [Hx Hnd].
  rewrite bool_decide_eq_false_2 by (apply Hfresh; left).
  f_equal. apply IH; [done|].
  intros y Hy Hseen. apply elem_of_cons in Hseen as [->|Hseen]; [done|].
  by apply (Hfresh y); [right|].
Qed.

Lemma sort_ascending_sorted (l : list nat) :
  StronglySorted lt l -> sort_ascending l = l.
Proof.
  unfold sort_ascending. induction 1 as [|x l Hl IH Hx]; simpl; [done|].
  rewrite IH. destruct l as [|y ys]; [done|]. simpl.
  apply Forall_cons in Hx as [Hxy _].
  by rewrite (proj2 (Nat.leb_le x y)) by lia.
Qed.


End Navigation.

(** * The model on concrete inputs *)

(** The scenarios of the specification, run on the reference engine. *)
Example align_replaced_line :
  Dmp.align ["a"; "b"; "c"] ["a"; "x"; "c"]
  = [equal_entry "a" "a" 0 0; delete_entry "b" 1; insert_entry "x" 1;
     equal_entry "c" "c" 2 2].
Proof. vm_compute. reflexivity. Qed.

Example align_edited_line :
  Dmp.align ["foo();"] ["foo(x);"] = [modify_entry "foo();" "foo(x);" 0 0]
  /\ Dmp.diff_cleanupSemantic (Dmp.diff_main "foo();" "foo(x);")
     = [(DIFF_EQUAL, "foo("); (DIFF_INSERT, "x"); (DIFF_EQUAL, ");")].
Proof. split; vm_compute; reflexivity. Qed.

Example align_two_inserts :
  Dmp.align [] ["a"; "b"] = [insert_entry "a" 0; insert_entry "b" 1].
Proof. vm_compute. reflexivity. Qed.

Example align_trimmed_equal :
  Dmp.align ["  a"] ["a"] = [equal_entry "  a" "a" 0 0].
Proof. vm_compute. reflexivity. Qed.

Example split_lines_empty : split_lines EmptyString = [EmptyString].
Proof. reflexivity. Qed.

(** C2, counterexample: on the reference engine the similarity of two empty
    strings is 0, which is not 1. *)
Lemma calculateSimilarity_empty_not_one :
  Dmp.similarity EmptyString EmptyString = 0%Q
  /\ ~ (Dmp.similarity EmptyString EmptyString == 1)%Q.
Proof. split; [reflexivity|]. vm_compute. discriminate. Qed.

(** The reference engine's script for two empty strings is empty, so it
    reconstructs them, and the similarity is 0. *)
Lemma calculateSimilarity_empty_is_zero_witness :
  reconstructs
    (Dmp.diff_cleanupSemantic (Dmp.diff_main EmptyString EmptyString))
    EmptyString EmptyString
  /\ calculateSimilarity Dmp.diff_main Dmp.diff_cleanupSemantic
       EmptyString EmptyString = 0%Q.
Proof.
  assert (H : reconstructs
                (Dmp.diff_cleanupSemantic
                   (Dmp.diff_main EmptyString EmptyString))
                EmptyString EmptyString).
  { repeat split. constructor. }
  split; [exact H|].
  exact (calculateSimilarity_empty_is_zero
           Dmp.diff_main Dmp.diff_cleanupSemantic H).
Defined.

(** C3, counterexample: aligning ["b"] with ["x"], the first step has both
    indices positive, unequal trimmed lines, similarity 0 and equal table
    values, and it emits an [insert], not a [delete]. *)
Lemma backtrack_step_tie_not_delete :
  trim_eq "b" "x" = false
  /\ (Dmp.similarity "b" "x" <= SIMILARITY_THRESHOLD)%Q
  /\ dp_get (build_dp ["b"] ["x"]) 0 1 = dp_get (build_dp ["b"] ["x"]) 1 0
  /\ backtrack_step Dmp.diff_main Dmp.diff_cleanupSemantic ["b"] ["x"]
       (build_dp ["b"] ["x"]) (mkBacktrack 1 1 [])
     = mkBacktrack 1 0 [insert_entry "x" 0]
  /\ backtrack_step Dmp.diff_main Dmp.diff_cleanupSemantic ["b"] ["x"]
       (build_dp ["b"] ["x"]) (mkBacktrack 1 1 [])
     <> mkBacktrack 0 1 [delete_entry "b" 0].
Proof.
  repeat split; try reflexivity.
  - vm_compute. discriminate.
  - vm_compute. discriminate.
Qed.

(** The first step of aligning ["b"] with ["x"] is a tie, and an [insert]. *)
Lemma backtrack_step_tie_inserts_witness :
  0 < 1 /\ 0 < 1
  /\ ["b"] !! (1 - 1) = Some "b"
  /\ ["x"] !! (1 - 1) = Some "x"
  /\ trim_eq "b" "x" = false
  /\ (Dmp.similarity "b" "x" <= SIMILARITY_THRESHOLD)%Q
  /\ dp_get (build_dp ["b"] ["x"]) (1 - 1) 1
     = dp_get (build_dp ["b"] ["x"]) 1 (1 - 1)
  /\ backtrack_step Dmp.diff_main Dmp.diff_cleanupSemantic ["b"] ["x"]
       (build_dp ["b"] ["x"]) (mkBacktrack 1 1 [])
     = mkBacktrack 1 (1 - 1) [insert_entry "x" (1 - 1)].
Proof.
  assert (Hsim : (Dmp.similarity "b" "x" <= SIMILARITY_THRESHOLD)%Q).
  { vm_compute. discriminate. }
  do 2 (split; [lia|]). do 3 (split; [reflexivity|]).
  split; [exact Hsim|]. split; [reflexivity|].
  apply (backtrack_step_tie_inserts Dmp.diff_main Dmp.diff_cleanupSemantic
           ["b"] ["x"] (build_dp ["b"] ["x"]) 1 1 [] "b" "x");
    try reflexivity; try lia; exact Hsim.
Defined.

(** A step where the table prefers [delete] (line 0 of the original is the
    modified line) and the similarity of the candidates, 6/7, still makes
    it a [modify]. *)
Lemma backtrack_step_modify_witness :
  0 < 2 /\ 0 < 1
  /\ repeated_original !! (2 - 1) = Some "foo();"
  /\ repeated_modified !! (1 - 1) = Some "foo(x);"
  /\ trim_eq "foo();" "foo(x);" = false
  /\ (SIMILARITY_THRESHOLD < Dmp.similarity "foo();" "foo(x);")%Q
  /\ gtb (dp_get (build_dp repeated_original repeated_modified) (2 - 1) 1)
         (dp_get (build_dp repeated_original repeated_modified) 2 (1 - 1))
     = true
  /\ backtrack_step Dmp.diff_main Dmp.diff_cleanupSemantic
       repeated_original repeated_modified
       (build_dp repeated_original repeated_modified) (mkBacktrack 2 1 [])
     = mkBacktrack (2 - 1) (1 - 1)
         [modify_entry "foo();" "foo(x);" (2 - 1) (1 - 1)].
Proof.
  assert (Hsim : (SIMILARITY_THRESHOLD < Dmp.similarity "foo();" "foo(x);")%Q).
  { vm_compute. reflexivity. }
  do 2 (split; [lia|]). do 3 (split; [reflexivity|]).
  split; [exact Hsim|]. split; [reflexivity|].
  apply (backtrack_step_modify Dmp.diff_main Dmp.diff_cleanupSemantic
           repeated_original repeated_modified
           (build_dp repeated_original repeated_modified) 2 1 []
           "foo();" "foo(x);");
    try reflexivity; try lia; exact Hsim.
Defined.

(** C9, counterexample: aligning [shifted_original] with
    [shifted_modified] gives a [modify] entry pairing line 1, ["foo();"],
    with line 0, ["foo(x);"].  The left editor's diff for row 1 is the
    deletion of ["foo();"] (the other document has no row 1), and the right
    editor's diff for row 0 is between ["foo(x);"] and ["a"]: neither is
    the character diff of the entry's two lines, in either direction. *)
Lemma CodeEditor_diff_not_of_modify :
  modify_entry "foo();" "foo(x);" 1 0
    ∈ Dmp.align (split_lines shifted_original) (split_lines shifted_modified)
  /\ CodeEditor_diff_at Dmp.diff_main Dmp.diff_cleanupSemantic
       shifted_original shifted_modified 1
     = Some [(DIFF_DELETE, "foo();")]
  /\ CodeEditor_diff_at Dmp.diff_main Dmp.diff_cleanupSemantic
       shifted_modified shifted_original 0
     = Some [(DIFF_DELETE, "foo(x);"); (DIFF_INSERT, "a")]
  /\ CodeEditor_diff_at Dmp.diff_main Dmp.diff_cleanupSemantic
       shifted_original shifted_modified 1
     <> Some (Dmp.diff_cleanupSemantic (Dmp.diff_main "foo();" "foo(x);"))
  /\ CodeEditor_diff_at Dmp.diff_main Dmp.diff_cleanupSemantic
       shifted_modified shifted_original 0
     <> Some (Dmp.diff_cleanupSemantic (Dmp.diff_main "foo();" "foo(x);"))
  /\ CodeEditor_diff_at Dmp.diff_main Dmp.diff_cleanupSemantic
       shifted_modified shifted_original 0
     <> Some (Dmp.diff_cleanupSemantic (Dmp.diff_main "foo(x);" "foo();")).
Proof.
  repeat split; try (vm_compute; reflexivity); try (vm_compute; discriminate).
  vm_compute. apply list_elem_of_further, list_elem_of_here.
Qed.

(** One edited line against one line: the [modify] entry sits on row 0 of
    both documents, and both editors diff exactly its two lines. *)
Lemma CodeEditor_diff_of_modify_same_row_witness :
  "foo();" <> EmptyString /\ "foo(x);" <> EmptyString
  /\ modify_entry "foo();" "foo(x);" 0 0
       ∈ Dmp.align (split_lines "foo();") (split_lines "foo(x);")
  /\ type (modify_entry "foo();" "foo(x);" 0 0) = modify
  /\ originalIndex (modify_entry "foo();" "foo(x);" 0 0) = Some 0
  /\ modifiedIndex (modify_entry "foo();" "foo(x);" 0 0) = Some 0
  /\ exists o m,
       originalLine (modify_entry "foo();" "foo(x);" 0 0) = Some o
       /\ modifiedLine (modify_entry "foo();" "foo(x);" 0 0) = Some m
       /\ CodeEditor_diff_at Dmp.diff_main Dmp.diff_cleanupSemantic
            "foo();" "foo(x);" 0
          = Some (Dmp.diff_cleanupSemantic (Dmp.diff_main o m))
       /\ CodeEditor_diff_at Dmp.diff_main Dmp.diff_cleanupSemantic
            "foo(x);" "foo();" 0
          = Some (Dmp.diff_cleanupSemantic (Dmp.diff_main m o)).
Proof.
  assert (Hin : modify_entry "foo();" "foo(x);" 0 0
                  ∈ Dmp.align (split_lines "foo();") (split_lines "foo(x);")).
  { vm_compute. apply list_elem_of_here. }
  do 2 (split; [discriminate|]). split; [exact Hin|].
  do 3 (split; [reflexivity|]).
  apply (CodeEditor_diff_of_modify_same_row
           Dmp.diff_main Dmp.diff_cleanupSemantic "foo();" "foo(x);"
           (modify_entry "foo();" "foo(x);" 0 0) 0);
    try discriminate; try reflexivity; exact Hin.
Defined.

(** The initial store holds two empty documents. *)
Lemma compareCode_both_empty_witness :
  originalCode (initial_store [] true) = EmptyString
  /\ modifiedCode (initial_store [] true) = EmptyString
  /\ lineDiffs (compareCode Dmp.diff_main Dmp.diff_cleanupSemantic 0 0
                  (initial_store [] true))
     = [equal_entry EmptyString EmptyString 0 0]
  /\ diffLines (compareCode Dmp.diff_main Dmp.diff_cleanupSemantic 0 0
                  (initial_store [] true))
     = [].
Proof.
  split; [reflexivity|]. split; [reflexivity|].
  apply (compareCode_both_empty Dmp.diff_main Dmp.diff_cleanupSemantic 0 0
           (initial_store [] true)); reflexivity.
Defined.

(** A step where the similarity is 0 and the table value above is strictly
    greater: the loop emits a [delete]. *)
Lemma backtrack_step_strict_deletes_witness :
  0 < 2 /\ 0 < 1
  /\ ["a"; "b"] !! (2 - 1) = Some "b"
  /\ ["a"] !! (1 - 1) = Some "a"
  /\ trim_eq "b" "a" = false
  /\ (Dmp.similarity "b" "a" <= SIMILARITY_THRESHOLD)%Q
  /\ dp_get (build_dp ["a"; "b"] ["a"]) 2 (1 - 1)
     < dp_get (build_dp ["a"; "b"] ["a"]) (2 - 1) 1
  /\ backtrack_step Dmp.diff_main Dmp.diff_cleanupSemantic ["a"; "b"] ["a"]
       (build_dp ["a"; "b"] ["a"]) (mkBacktrack 2 1 [])
     = mkBacktrack (2 - 1) 1 [delete_entry "b" (2 - 1)].
Proof.
  assert (Hsim : (Dmp.similarity "b" "a" <= SIMILARITY_THRESHOLD)%Q).
  { vm_compute. discriminate. }
  assert (Hdp : dp_get (build_dp ["a"; "b"] ["a"]) 2 (1 - 1)
                < dp_get (build_dp ["a"; "b"] ["a"]) (2 - 1) 1).
  { vm_compute. lia. }
  do 2 (split; [lia|]). do 3 (split; [reflexivity|]).
  split; [exact Hsim|]. split; [exact Hdp|].
  apply (backtrack_step_strict_deletes Dmp.diff_main Dmp.diff_cleanupSemantic
           ["a"; "b"] ["a"] (build_dp ["a"; "b"] ["a"]) 2 1 [] "b" "a");
    try reflexivity; try lia; try exact Hsim; exact Hdp.
Defined.

(** * Further properties of the alignment *)

Section Alignment_more.

Variable diff_main : string -> string -> list Diff.
Variable diff_cleanupSemantic : list Diff -> list Diff.

(** A property of the loop state that every iteration keeps holds when the
    loop stops. *)
Lemma backtrack_invariant (originalLines modifiedLines : list string)
    (dp : dp_table) (P : Backtrack -> Prop) :
  (forall st, P st -> backtrack_cond st = true ->
              P (backtrack_step diff_main diff_cleanupSemantic
                   originalLines modifiedLines dp st)) ->
  forall fuel st, P st ->
    P (backtrack diff_main diff_cleanupSemantic
         originalLines modifiedLines dp fuel st).
Proof.
  intros Hstep fuel. induction fuel as [|fuel IH]; intros st HP; simpl.
  - done.
  - destruct (backtrack_cond st) eqn:Hcond; [|done]. by apply IH, Hstep.
Qed.

Lemma exceeds_threshold_inv (q : Q) :
  exceeds_threshold q = true -> (SIMILARITY_THRESHOLD < q)%Q.
Proof.
  unfold exceeds_threshold. intros H. apply negb_true_iff in H.
  apply Qnot_le_lt. intros Hle. apply Qle_bool_iff in Hle. congruence.
Qed.

Lemma paired_count_cons (e : LineDiffResult) (l : list LineDiffResult) :
  paired_count (e :: l)
  = (if is_paired e then 1 else 0) + paired_count l.
Proof.
  unfold paired_count. rewrite filter_cons.
  destruct (decide (is_paired e = true)) as [H|H].
  - by rewrite H.
  - apply not_true_is_false in H. by rewrite H.
Qed.

Lemma backtrack_step_counted (originalLines modifiedLines : list string)
    (dp : dp_table) (m n : nat) (st : Backtrack) :
  counted m n st -> backtrack_cond st = true ->
  counted m n (backtrack_step diff_main diff_cleanupSemantic
                 originalLines modifiedLines dp st).
Proof.
  destruct st as [i j result].
  unfold counted, backtrack_cond, backtrack_step.
  cbn [bt_i bt_j bt_result].
  intros (Hsum & Hi & Hj) Hcond.
  destruct (0 <? i) eqn:Hpi; destruct (0 <? j) eqn:Hpj;
    cbn [andb orb] in *; try discriminate;
    try (apply Nat.ltb_lt in Hpi); try (apply Nat.ltb_lt in Hpj);
    repeat (match goal with
            | |- context [if ?b then _ else _] => destruct b
            end);
    cbn [bt_i bt_j bt_result length]; rewrite !paired_count_cons;
    cbn; lia.
Qed.

Lemma computeLineDiff_counted (originalLines modifiedLines : list string) :
  counted (length originalLines) (length modifiedLines)
    (mkBacktrack 0 0
       (computeLineDiff diff_main diff_cleanupSemantic
          originalLines modifiedLines)).
Proof.
  unfold computeLineDiff.
  set (dp := build_dp originalLines modifiedLines).
  set (m := length originalLines). set (n := length modifiedLines).
  pose proof (backtrack_invariant originalLines modifiedLines dp (counted m n)
                (backtrack_step_counted originalLines modifiedLines dp m n)
                (m + n) (mkBacktrack m n [])) as H.
  destruct (backtrack_aligned diff_main diff_cleanupSemantic
              originalLines modifiedLines dp (m + n) (mkBacktrack m n []))
    as [_ Hexit]; [apply aligned_init | done |].
  apply backtrack_cond_false in Hexit as [Hi Hj].
  destruct (backtrack diff_main diff_cleanupSemantic
              originalLines modifiedLines dp (m + n) (mkBacktrack m n []))
    as [i j result].
  simpl in *. subst i j. apply H. unfold counted, paired_count. simpl. lia.
Qed.

(** The alignment of [m] lines with [n] lines has [m + n] entries less one
    for every [equal] or [modify] entry, so between [max m n] and [m + n]. *)
Lemma computeLineDiff_length (originalLines modifiedLines : list string) :
  length (computeLineDiff diff_main diff_cleanupSemantic
            originalLines modifiedLines)
  + paired_count (computeLineDiff diff_main diff_cleanupSemantic
                    originalLines modifiedLines)
  = length originalLines + length modifiedLines
  /\ Nat.max (length originalLines) (length modifiedLines)
     <= length (computeLineDiff diff_main diff_cleanupSemantic
                  originalLines modifiedLines)
     <= length originalLines + length modifiedLines.
Proof.
  destruct (computeLineDiff_counted originalLines modifiedLines)
    as (Hsum & Hi & Hj). simpl in *. lia.
Qed.

Lemma backtrack_step_justified (originalLines modifiedLines : list string)
    (dp : dp_table) (st : Backtrack) :
  Forall (entry_justified diff_main diff_cleanupSemantic) (bt_result st) ->
  backtrack_cond st = true ->
  Forall (entry_justified diff_main diff_cleanupSemantic)
    (bt_result (backtrack_step diff_main diff_cleanupSemantic
                  originalLines modifiedLines dp st)).
Proof.
  destruct st as [i j result]. unfold backtrack_step; simpl.
  intros Hres _.
  destruct ((0 <? i) && (0 <? j)); simpl.
  - destruct (trim_eq _ _) eqn:Heq; simpl.
    + constructor; [|done]. unfold entry_justified; simpl. eauto.
    + destruct (exceeds_threshold _) eqn:Hsim; simpl.
      * constructor; [|done]. unfold entry_justified; simpl.
        apply exceeds_threshold_inv in Hsim. eauto 6.
      * destruct (gtb _ _); simpl; by constructor.
  - destruct (0 <? i); simpl; by constructor.
Qed.

Lemma backtrack_justified (originalLines modifiedLines : list string) :
  Forall (entry_justified diff_main diff_cleanupSemantic)
    (computeLineDiff diff_main diff_cleanupSemantic
       originalLines modifiedLines).
Proof.
  unfold computeLineDiff.
  apply (backtrack_invariant originalLines modifiedLines _
           (fun st => Forall (entry_justified diff_main diff_cleanupSemantic)
                        (bt_result st))).
  - intros st. apply backtrack_step_justified.
  - constructor.
Qed.

(** Every entry of the alignment has its kind for the reason the loop
    tests: [equal] entries pair lines equal after trimming, [modify]
    entries pair lines that differ after trimming and are more than 0.3
    similar; and every entry carries the lines its indices name. *)
Lemma computeLineDiff_entries_justified
    (originalLines modifiedLines : list string) :
  Forall (entry_justified diff_main diff_cleanupSemantic)
    (computeLineDiff diff_main diff_cleanupSemantic
       originalLines modifiedLines)
  /\ Forall (entry_sound originalLines modifiedLines)
       (computeLineDiff diff_main diff_cleanupSemantic
          originalLines modifiedLines).
Proof.
  split; [apply backtrack_justified|].
  apply (aligned_sound _ _ _
           (computeLineDiff_aligned diff_main diff_cleanupSemantic
              originalLines modifiedLines)).
Qed.

End Alignment_more.

(** ** Documents that agree line by line *)

Section Agreement.

Variable diff_main : string -> string -> list Diff.
Variable diff_cleanupSemantic : list Diff -> list Diff.

(** With no modified line left every step is the [delete] branch. *)
Lemma backtrack_all_delete (O : list string) (dp : dp_table) (i : nat) :
  forall (fuel : nat) (acc : list LineDiffResult),
    i <= length O -> i <= fuel ->
    backtrack diff_main diff_cleanupSemantic O [] dp fuel (mkBacktrack i 0 acc)
    = mkBacktrack 0 0 (imap (fun k x => delete_entry x k) (take i O) ++ acc).
Proof.
  induction i as [|i IH]; intros fuel acc Hlen Hfuel.
  - destruct fuel; done.
  - destruct fuel as [|fuel]; [lia|].
    destruct (lookup_lt_is_Some_2 O i) as [x Hx]; [lia|].
    simpl. unfold backtrack_step; simpl.
    rewrite Nat.sub_0_r, (line_at_lookup _ _ _ Hx).
    rewrite IH by lia.
    rewrite (take_S_r _ _ _ Hx), imap_app, <- app_assoc. simpl.
    rewrite length_take_le by lia. by rewrite Nat.add_0_r.
Qed.

(** Against an empty modified document every original line is deleted:
    [computeLineDiff(O, [])] is one [delete] entry per line of [O], in
    document order. *)
Lemma computeLineDiff_empty_modified (O : list string) :
  computeLineDiff diff_main diff_cleanupSemantic O []
  = imap (fun k x => delete_entry x k) O.
Proof.
  unfold computeLineDiff. simpl length. rewrite Nat.add_0_r.
  rewrite backtrack_all_delete by lia.
  simpl. by rewrite firstn_all, app_nil_r.
Qed.

(** On documents that agree line by line after trimming the loop stays on
    the diagonal and every step is the [equal] branch. *)
Lemma backtrack_agreeing (O M : list string) (dp : dp_table) (i : nat) :
  Forall2 (fun o m => trim_eq o m = true) O M ->
  forall (fuel : nat) (acc : list LineDiffResult),
    i <= length O -> i <= fuel ->
    backtrack diff_main diff_cleanupSemantic O M dp fuel (mkBacktrack i i acc)
    = mkBacktrack 0 0
        (imap (fun k p => equal_entry p.1 p.2 k k) (take i (zip O M)) ++ acc).
Proof.
  intros Hagree. induction i as [|i IH]; intros fuel acc Hlen Hfuel.
  - destruct fuel; done.
  - destruct fuel as [|fuel]; [lia|].
    destruct (lookup_lt_is_Some_2 O i) as [x Hx]; [lia|].
    destruct (Forall2_lookup_l _ _ _ _ _ Hagree Hx) as (y & Hy & Hxy).
    assert (Hzip : zip O M !! i = Some (x, y)).
    { rewrite lookup_zip_with, Hx. simpl. by rewrite Hy. }
    simpl. unfold backtrack_step; simpl.
    rewrite Nat.sub_0_r, (line_at_lookup _ _ _ Hx), (line_at_lookup _ _ _ Hy).
    rewrite Hxy. rewrite IH by lia.
    rewrite (take_S_r _ _ _ Hzip), imap_app, <- app_assoc. simpl.
    rewrite length_take_le; [by rewrite Nat.add_0_r|].
    apply lookup_lt_Some in Hzip. lia.
Qed.

(** Two documents with the same number of lines, line [k] of one equal to
    line [k] of the other after trimming, align into [equal] entries only,
    entry [k] carrying both untrimmed lines. *)
Lemma computeLineDiff_agreeing (O M : list string) :
  Forall2 (fun o m => trim_eq o m = true) O M ->
  computeLineDiff diff_main diff_cleanupSemantic O M
  = imap (fun k p => equal_entry p.1 p.2 k k) (zip O M).
Proof.
  intros Hagree. unfold computeLineDiff.
  rewrite <- (Forall2_length _ _ _ Hagree).
  rewrite (backtrack_agreeing O M _ _ Hagree) by lia.
  simpl. rewrite firstn_all2; [by rewrite app_nil_r|].
  rewrite length_zip_with. pose proof (Forall2_length _ _ _ Hagree). lia.
Qed.

Lemma changed_positions_nil_from (r : list LineDiffResult) :
  forall (k0 : nat) (acc : list nat),
    foldl (fun acc p =>
             if decide (type p.2 = equal) then acc else acc ++ [p.1 + 1])
          acc (imap (fun k e => (k0 + k, e)) r) = []
    <-> acc = [] /\ Forall (fun e => type e = equal) r.
Proof.
  induction r as [|e r IH]; intros k0 acc; simpl.
  - split; [intros ->; by split | by intros [-> _]].
  - rewrite (imap_ext _ (fun k e => (S k0 + k, e)))
      by (intros; simpl; f_equal; lia).
    rewrite IH. destruct (decide (type e = equal)) as [He|He].
    + split; intros [Hacc Hr]; split; try done.
      * by constructor.
      * by apply Forall_cons in Hr as [_ Hr].
    + split; intros [Hacc Hr].
      * by destruct acc.
      * by apply Forall_cons in Hr as [Hr _].
Qed.

(** No position is reported exactly when every entry is [equal]. *)
Lemma changed_positions_nil (r : list LineDiffResult) :
  changed_positions r = [] <-> Forall (fun e => type e = equal) r.
Proof.
  unfold changed_positions.
  rewrite (imap_ext _ (fun k e => (0 + k, e))) by done.
  rewrite changed_positions_nil_from. split; [by intros [_ H] | by split].
Qed.

Lemma all_equal_agree (r : list LineDiffResult) :
  Forall (fun e => type e = equal) r ->
  Forall (entry_justified diff_main diff_cleanupSemantic) r ->
  Forall2 (fun o m => trim_eq o m = true)
    (omap originalLine r) (omap modifiedLine r).
Proof.
  induction r as [|e r IH]; intros Heq Hj; [constructor|].
  apply Forall_cons in Heq as [He Heq]. apply Forall_cons in Hj as [Hje Hj].
  unfold entry_justified in Hje. rewrite He in Hje.
  destruct Hje as (o & m & Ho & Hm & Hom).
  simpl. rewrite Ho, Hm. constructor; [done | by apply IH].
Qed.

(** What [compareCode] stores in [diffLines]. *)
Lemma compareCode_positions (now_id now_ts : Z) (s : CodeStore) :
  diffLines (compareCode diff_main diff_cleanupSemantic now_id now_ts s)
  = changed_positions
      (computeLineDiff diff_main diff_cleanupSemantic
         (split_lines (originalCode s)) (split_lines (modifiedCode s))).
Proof.
  unfold compareCode, saveToHistory. simpl.
  set (r := computeLineDiff _ _ _ _).
  pose proof (changed_positions_sorted r) as Hsorted.
  destruct (_ && _); simpl;
    rewrite set_spread_NoDup
      by (by apply StronglySorted_lt_NoDup
          || (intros ? _; apply not_elem_of_nil));
    by apply sort_ascending_sorted.
Qed.

(** [compareCode] reports no difference exactly when the two documents have
    the same number of lines and agree line by line after trimming. *)
Lemma compareCode_no_difference (now_id now_ts : Z) (s : CodeStore) :
  diffLines (compareCode diff_main diff_cleanupSemantic now_id now_ts s) = []
  <-> Forall2 (fun o m => trim_eq o m = true)
        (split_lines (originalCode s)) (split_lines (modifiedCode s)).
Proof.
  rewrite compareCode_positions, changed_positions_nil.
  set (O := split_lines (originalCode s)).
  set (M := split_lines (modifiedCode s)). split.
  - intros Heq.
    destruct (computeLineDiff_aligned diff_main diff_cleanupSemantic O M)
      as [_ _ Ho Hm _ _ _ _]. simpl in Ho, Hm. rewrite drop_0 in Ho, Hm.
    rewrite <- Ho at 1. rewrite <- Hm at 2.
    apply all_equal_agree; [done|]. apply backtrack_justified.
  - intros Hagree. unfold computeLineDiff.
    rewrite <- (Forall2_length _ _ _ Hagree).
    rewrite (backtrack_agreeing O M _ _ Hagree) by lia. simpl.
    apply Forall_app. split; [|constructor].
    apply Forall_forall. intros e He.
    apply list_elem_of_lookup in He as [k Hk].
    rewrite list_lookup_imap in Hk.
    destruct (take _ _ !! k) as [p|]; simpl in Hk; [|done].
    by inversion Hk.
Qed.

End Agreement.

(** ** The table of [computeLineDiff] *)

Section Table.

Lemma lcs_len_0_r (O M : list string) (i : nat) : lcs_len O M i 0 = 0.
Proof. by destruct i. Qed.

Lemma lcs_len_S_S (O M : list string) (i j : nat) :
  lcs_len O M (S i) (S j)
  = if trim_eq (line_at O i) (line_at M j)
    then lcs_len O M i j + 1
    else Nat.max (lcs_len O M i (S j)) (lcs_len O M (S i) j).
Proof. reflexivity. Qed.

Lemma dp_shape_init (m n : nat) : dp_shape m n (dp_init m n).
Proof.
  split; [apply length_replicate|].
  apply Forall_replicate, length_replicate.
Qed.

Lemma dp_get_init (m n a b : nat) : dp_get (dp_init m n) a b = 0.
Proof.
  unfold dp_get.
  destruct (dp_init m n !! a) as [row|] eqn:Hrow; [|reflexivity].
  unfold dp_init in Hrow. apply lookup_replicate_1 in Hrow as [-> _].
  change (default 0 (replicate (S n) 0 !! b) = 0).
  destruct (replicate (S n) 0 !! b) as [x|] eqn:Hx; [|reflexivity].
  by apply lookup_replicate_1 in Hx as [-> _].
Qed.

Lemma dp_shape_set (m n : nat) (dp : dp_table) (i j v : nat) :
  dp_shape m n dp -> dp_shape m n (dp_set dp i j v).
Proof.
  intros [Hlen Hrows]. unfold dp_set, dp_table in *.
  split; [by rewrite length_alter|].
  apply Forall_alter; [done|]. intros row _ Hrow. by rewrite length_insert.
Qed.

Lemma dp_get_set_eq (m n : nat) (dp : dp_table) (i j v : nat) :
  dp_shape m n dp -> i <= m -> j <= n -> dp_get (dp_set dp i j v) i j = v.
Proof.
  intros [Hlen Hrows] Hi Hj. unfold dp_get, dp_set, dp_table in *.
  rewrite list_lookup_alter_eq.
  destruct (lookup_lt_is_Some_2 dp i) as [row Hrow]; [lia|].
  rewrite Hrow. simpl.
  pose proof (Forall_lookup_1 _ _ _ _ Hrows Hrow) as Hlr. simpl in Hlr.
  by rewrite list_lookup_insert_eq by lia.
Qed.

Lemma dp_get_set_ne (dp : dp_table) (i j v a b : nat) :
  a <> i \/ b <> j -> dp_get (dp_set dp i j v) a b = dp_get dp a b.
Proof.
  intros Hne. unfold dp_get, dp_set, dp_table in *.
  destruct (decide (a = i)) as [->|Hai].
  - rewrite list_lookup_alter_eq.
    destruct (dp !! i) as [row|]; simpl; [|done].
    rewrite list_lookup_insert_ne; [done|]. intros ->. by destruct Hne.
  - by rewrite list_lookup_alter_ne.
Qed.

(** A loop over [s + 1, ..., s + n] that keeps an indexed invariant. *)
Lemma foldl_seq_invariant {A} (P : nat -> A -> Prop) (f : A -> nat -> A)
    (n : nat) :
  forall (s : nat) (a : A),
    P s a ->
    (forall k a, s < k <= s + n -> P (k - 1) a -> P k (f a k)) ->
    P (s + n) (foldl f a (seq (S s) n)).
Proof.
  induction n as [|n IH]; intros s a Ha Hstep; simpl.
  - by rewrite Nat.add_0_r.
  - replace (s + S n) with (S s + n) by lia. apply IH.
    + apply (Hstep (S s)); [lia|]. simpl. by rewrite Nat.sub_0_r.
    + intros k a' Hk. apply Hstep. lia.
Qed.

Variables originalLines modifiedLines : list string.

Local Abbreviation m := (length originalLines).
Local Abbreviation n := (length modifiedLines).
Local Abbreviation filled := (dp_filled originalLines modifiedLines).

Lemma dp_filled_init : filled 0 n (dp_init m n).
Proof.
  split; [apply dp_shape_init|]. split.
  - intros a b _ _ [Ha|[-> _]]; [lia|]. by rewrite dp_get_init.
  - intros a b _. apply dp_get_init.
Qed.

(** From a complete row to the start of the next one: column 0 is never
    written and holds the initial 0. *)
Lemma dp_filled_next_row (i : nat) (dp : dp_table) :
  filled i n dp -> filled (S i) 0 dp.
Proof.
  intros (Hshape & Hdone & Hrest). split; [done|]. split.
  - intros a b Ha Hb [Hlt|[-> Hb0]].
    + apply Hdone; try done.
      destruct (decide (a = i)) as [->|]; [right|left]; lia.
    + replace b with 0 by lia. rewrite lcs_len_0_r. apply Hrest. lia.
  - intros a b Hab. apply Hrest. lia.
Qed.

(** The body of the inner loop writes the recurrence into cell [(i, j)]. *)
Lemma dp_filled_cell (i j : nat) (dp : dp_table) :
  0 < i <= m -> 0 < j <= n ->
  filled i (j - 1) dp ->
  filled i j (dp_cell originalLines modifiedLines dp i j).
Proof.
  intros Hi Hj (Hshape & Hdone & Hrest).
  destruct i as [|i]; [lia|]. destruct j as [|j]; [lia|].
  replace (S j - 1) with j in * by lia.
  assert (Hv : dp_get (dp_cell originalLines modifiedLines dp (S i) (S j))
                 (S i) (S j)
               = lcs_len originalLines modifiedLines (S i) (S j)).
  { unfold dp_cell. replace (S i - 1) with i by lia.
    replace (S j - 1) with j by lia. rewrite lcs_len_S_S.
    destruct (trim_eq _ _); rewrite (dp_get_set_eq m n) by (done || lia).
    - rewrite Hdone by lia. done.
    - rewrite !Hdone by lia. done. }
  assert (Hother : forall a b, a <> S i \/ b <> S j ->
            dp_get (dp_cell originalLines modifiedLines dp (S i) (S j)) a b
            = dp_get dp a b).
  { intros a b Hab. unfold dp_cell.
    destruct (trim_eq _ _); by apply dp_get_set_ne. }
  split; [|split].
  - unfold dp_cell. destruct (trim_eq _ _); by apply dp_shape_set.
  - intros a b Ha Hb Hab.
    destruct (decide (a = S i /\ b = S j)) as [[-> ->]|Hne]; [done|].
    rewrite Hother by (apply not_and_l in Hne; done).
    apply Hdone; lia.
  - intros a b Hab. rewrite Hother by lia. apply Hrest. lia.
Qed.

Lemma build_dp_filled : filled m n (build_dp originalLines modifiedLines).
Proof.
  unfold build_dp.
  apply (foldl_seq_invariant (fun i dp => filled i n dp) _ m 0).
  - apply dp_filled_init.
  - intros i dp Hi Hprev.
    apply (foldl_seq_invariant (fun j dp => filled i j dp) _ n 0).
    + destruct i as [|i]; [lia|]. apply dp_filled_next_row.
      simpl in Hprev. by rewrite Nat.sub_0_r in Hprev.
    + intros j dp' Hj Hcell. apply dp_filled_cell; (done || lia).
Qed.

(** The two nested loops of [computeLineDiff] fill the table with the LCS
    recurrence: for [i] up to [m] and [j] up to [n], [dp[i][j]] is
    [lcs_len i j], the first row and column being 0. *)
Lemma build_dp_lcs_len (i j : nat) :
  i <= m -> j <= n ->
  dp_get (build_dp originalLines modifiedLines) i j
  = lcs_len originalLines modifiedLines i j.
Proof.
  intros Hi Hj. destruct build_dp_filled as (_ & Hdone & _).
  apply Hdone; lia.
Qed.

End Table.

(** ** The table holds longest common subsequences *)

Section Longest.

Lemma lcs_list_cons (x y : string) (xs ys : list string) :
  lcs_list (x :: xs) (y :: ys)
  = if trim_eq x y then lcs_list xs ys + 1
    else Nat.max (lcs_list xs (y :: ys)) (lcs_list (x :: xs) ys).
Proof. reflexivity. Qed.

Lemma lcs_list_nil_r (xs : list string) : lcs_list xs [] = 0.
Proof. by destruct xs. Qed.

(** No common subsequence is longer than [lcs_list]. *)
Lemma lcs_list_upper (xs : list string) :
  forall ys s t, common_subsequence s t xs ys -> length s <= lcs_list xs ys.
Proof.
  induction xs as [|x xs IHx]; intros ys s t (Hs & Ht & Hst).
  { apply sublist_nil_r in Hs as ->. simpl. lia. }
  revert s t Hs Ht Hst. induction ys as [|y ys IHy]; intros s t Hs Ht Hst.
  { apply sublist_nil_r in Ht as ->. apply Forall2_nil_inv_r in Hst as ->.
    simpl. lia. }
  rewrite lcs_list_cons.
  apply sublist_cons_r in Hs as [Hs|(s' & -> & Hs')];
    apply sublist_cons_r in Ht as [Ht|(t' & -> & Ht')].
  - pose proof (IHx ys s t (conj Hs (conj Ht Hst))).
    destruct (trim_eq x y); [lia|].
    pose proof (IHx (y :: ys) s t
                  (conj Hs (conj (sublist_cons _ _ _ Ht) Hst))). lia.
  - destruct (trim_eq x y).
    + destruct s as [|a s']; [simpl; lia|].
      apply Forall2_cons_1 in Hst as [_ Hst].
      assert (Hs' : s' `sublist_of` xs).
      { apply sublist_cons_l in Hs as (k1 & k2 & -> & Hk).
        by apply sublist_inserts_l, sublist_cons. }
      pose proof (IHx ys s' t' (conj Hs' (conj Ht' Hst))). simpl. lia.
    + pose proof (IHx (y :: ys) s (y :: t')
                    (conj Hs (conj (sublist_skip _ _ _ Ht') Hst))). lia.
  - destruct (trim_eq x y).
    + destruct t as [|b t']; [apply Forall2_nil_inv_r in Hst; done|].
      apply Forall2_cons_1 in Hst as [_ Hst].
      assert (Ht' : t' `sublist_of` ys).
      { apply sublist_cons_l in Ht as (k1 & k2 & -> & Hk).
        by apply sublist_inserts_l, sublist_cons. }
      pose proof (IHx ys s' t' (conj Hs' (conj Ht' Hst))). simpl. lia.
    + pose proof (IHy (x :: s') t (sublist_skip _ _ _ Hs') Ht Hst). lia.
  - apply Forall2_cons_1 in Hst as [Hxy Hst]. rewrite Hxy.
    pose proof (IHx ys s' t' (conj Hs' (conj Ht' Hst))). simpl. lia.
Qed.

(** Some common subsequence is as long as [lcs_list]. *)
Lemma lcs_list_reached (xs : list string) :
  forall ys, exists s t,
    common_subsequence s t xs ys /\ length s = lcs_list xs ys.
Proof.
  induction xs as [|x xs IHx]; intros ys.
  { exists [], []. repeat split; try constructor. apply sublist_nil_l. }
  induction ys as [|y ys IHy].
  { exists [], []. repeat split; try constructor. apply sublist_nil_l. }
  rewrite lcs_list_cons. destruct (trim_eq x y) eqn:Hxy.
  - destruct (IHx ys) as (s & t & (Hs & Ht & Hst) & Hlen).
    exists (x :: s), (y :: t). repeat split.
    + by apply sublist_skip.
    + by apply sublist_skip.
    + by constructor.
    + simpl. lia.
  - destruct (Nat.max_spec (lcs_list xs (y :: ys)) (lcs_list (x :: xs) ys))
      as [[_ ->]|[_ ->]].
    + destruct IHy as (s & t & (Hs & Ht & Hst) & Hlen).
      exists s, t. repeat split; try done. by apply sublist_cons.
    + destruct (IHx (y :: ys)) as (s & t & (Hs & Ht & Hst) & Hlen).
      exists s, t. repeat split; try done. by apply sublist_cons.
Qed.

Lemma sublist_reverse (l k : list string) :
  l `sublist_of` k -> reverse l `sublist_of` reverse k.
Proof.
  induction 1 as [|x l k _ IH|x l k _ IH].
  - constructor.
  - rewrite !reverse_cons. apply sublist_app; [done|].
    apply sublist_skip, sublist_nil_l.
  - rewrite reverse_cons. by apply sublist_inserts_r.
Qed.

Lemma common_subsequence_reverse (s t O M : list string) :
  common_subsequence s t O M ->
  common_subsequence (reverse s) (reverse t) (reverse O) (reverse M).
Proof.
  intros (Hs & Ht & Hst). repeat split.
  - by apply sublist_reverse.
  - by apply sublist_reverse.
  - by apply Forall2_reverse.
Qed.

(** The table's recurrence, on prefixes, is [lcs_list] on the reversed
    prefixes. *)
Lemma lcs_len_lcs_list (O M : list string) (i : nat) :
  forall j, i <= length O -> j <= length M ->
    lcs_len O M i j = lcs_list (reverse (take i O)) (reverse (take j M)).
Proof.
  induction i as [|i IHi]; intros j Hi Hj; [done|].
  destruct (lookup_lt_is_Some_2 O i) as [x Hx]; [lia|].
  rewrite (take_S_r _ _ _ Hx), reverse_snoc.
  induction j as [|j IHj].
  { by rewrite lcs_len_0_r. }
  destruct (lookup_lt_is_Some_2 M j) as [y Hy]; [lia|].
  rewrite (take_S_r _ _ _ Hy), reverse_snoc, lcs_list_cons, lcs_len_S_S.
  rewrite (line_at_lookup _ _ _ Hx), (line_at_lookup _ _ _ Hy).
  rewrite (IHi j) by lia. rewrite (IHi (S j)) by lia.
  rewrite (take_S_r _ _ _ Hy), reverse_snoc.
  rewrite IHj by lia. done.
Qed.

Lemma build_dp_upper (O M : list string) (i j : nat) (s t : list string) :
  i <= length O -> j <= length M ->
  common_subsequence s t (take i O) (take j M) ->
  length s <= dp_get (build_dp O M) i j.
Proof.
  intros Hi Hj Hc.
  rewrite (build_dp_lcs_len O M i j Hi Hj), (lcs_len_lcs_list O M i j Hi Hj).
  apply common_subsequence_reverse in Hc.
  apply lcs_list_upper in Hc. by rewrite length_reverse in Hc.
Qed.

Lemma build_dp_reached (O M : list string) (i j : nat) :
  i <= length O -> j <= length M ->
  exists s t, common_subsequence s t (take i O) (take j M)
              /\ length s = dp_get (build_dp O M) i j.
Proof.
  intros Hi Hj.
  rewrite (build_dp_lcs_len O M i j Hi Hj), (lcs_len_lcs_list O M i j Hi Hj).
  destruct (lcs_list_reached (reverse (take i O)) (reverse (take j M)))
    as (s & t & Hc & Hlen).
  exists (reverse s), (reverse t). split.
  - apply common_subsequence_reverse in Hc.
    by rewrite !reverse_involutive in Hc.
  - by rewrite length_reverse.
Qed.

(** The table of [computeLineDiff] holds longest common subsequences: for
    [i] up to [m] and [j] up to [n], the first [i] original and the first
    [j] modified lines have a common subsequence (lines matching when
    equal after trimming) of length [dp[i][j]], and none longer. *)
Lemma build_dp_longest (O M : list string) (i j : nat) :
  i <= length O -> j <= length M ->
  (exists s t, common_subsequence s t (take i O) (take j M)
               /\ length s = dp_get (build_dp O M) i j)
  /\ (forall s t, common_subsequence s t (take i O) (take j M) ->
                  length s <= dp_get (build_dp O M) i j).
Proof.
  intros Hi Hj. split; [by apply build_dp_reached|].
  intros s t. by apply build_dp_upper.
Qed.

End Longest.

(** * The difference navigator *)

Section Navigator.

(** What [findIndex] returns: [-1] when no element satisfies [p], otherwise
    the position of the first one that does. *)
Lemma findIndex_from_spec {A} (p : A -> bool) (xs : list A) :
  forall k0 : Z,
    (findIndex_from p xs k0 = (-1)%Z /\ Forall (fun x => p x = false) xs)
    \/ (exists (i : nat) (x : A),
          findIndex_from p xs k0 = (k0 + Z.of_nat i)%Z
          /\ xs !! i = Some x /\ p x = true
          /\ Forall (fun y => p y = false) (take i xs)).
Proof.
  induction xs as [|x xs IH]; intros k0; simpl.
  - left. by split.
  - destruct (p x) eqn:Hpx.
    + right. exists 0, x. repeat split; try done. lia.
    + destruct (IH (k0 + 1)%Z)
        as [[Hnone Hall]|(i & y & Hi & Hy & Hpy & Hbefore)].
      * left. split; [done | by constructor].
      * right. exists (S i), y. repeat split; try done; [lia|].
        simpl. by constructor.
Qed.

Lemma array_at_of_nat (xs : list nat) (i : nat) :
  array_at xs (Z.of_nat i) = xs !! i.
Proof.
  unfold array_at. rewrite (proj2 (Z.ltb_ge _ _)) by lia.
  by rewrite Nat2Z.id.
Qed.

Lemma StronglySorted_lt_lookup (l : list nat) (i j x y : nat) :
  StronglySorted lt l -> l !! i = Some x -> l !! j = Some y -> i < j -> x < y.
Proof.
  intros Hsorted. revert i j.
  induction Hsorted as [|a l _ IH Ha]; intros i j Hi Hj Hlt; [done|].
  destruct j as [|j]; [lia|]. simpl in Hj. destruct i as [|i].
  - simpl in Hi. injection Hi as ->. rewrite Forall_lookup in Ha.
    exact (Ha j y Hj).
  - simpl in Hi. apply (IH i j); (done || lia).
Qed.

(** On strictly ascending [diffLines], the index of the current line when
    it is the difference at position [k]. *)
Lemma currentDiffIndex_on_diff (diffLines : list nat) (k L : nat) :
  StronglySorted lt diffLines -> diffLines !! k = Some L ->
  currentDiffIndex diffLines L = Z.of_nat k.
Proof.
  intros Hsorted Hk. unfold currentDiffIndex, findIndex.
  destruct (findIndex_from_spec (fun line => L <=? line) diffLines 0%Z)
    as [[_ Hall]|(i & x & -> & Hi & Hx & Hbefore)].
  - rewrite Forall_lookup in Hall. specialize (Hall k L Hk). simpl in Hall.
    apply Nat.leb_gt in Hall. lia.
  - apply Nat.leb_le in Hx. f_equal.
    destruct (Nat.lt_trichotomy i k) as [Hlt|[->|Hgt]]; [|done|].
    + pose proof (StronglySorted_lt_lookup _ _ _ _ _ Hsorted Hi Hk Hlt). lia.
    + rewrite Forall_lookup in Hbefore.
      assert (Hk' : take i diffLines !! k = Some L)
        by (by rewrite lookup_take_lt).
      specialize (Hbefore k L Hk'). simpl in Hbefore.
      apply Nat.leb_gt in Hbefore. lia.
Qed.

(** Standing on the difference at position [k] of strictly ascending
    [diffLines], "previous" goes to the difference at [k - 1] and "next" to
    the one at [k + 1]; at either end the handler makes no call. *)
Lemma navigator_steps (diffLines : list nat) (k L : nat) :
  StronglySorted lt diffLines -> diffLines !! k = Some L ->
  goToPrevious diffLines L
  = match k with
    | 0 => no_call
    | S k' => onNavigate (diffLines !! k')
    end
  /\ goToNext diffLines L
     = match diffLines !! S k with
       | Some L' => onNavigate (Some L')
       | None => no_call
       end.
Proof.
  intros Hsorted Hk.
  pose proof (currentDiffIndex_on_diff diffLines k L Hsorted Hk) as Hidx.
  pose proof (lookup_lt_Some _ _ _ Hk) as Hlt.
  unfold goToPrevious, goToNext, hasPrevious, hasNext. rewrite !Hidx. split.
  - destruct k as [|k'].
    + done.
    + rewrite (proj2 (Z.ltb_lt _ _)) by lia.
      replace (Z.of_nat (S k') - 1)%Z with (Z.of_nat k') by lia.
      by rewrite array_at_of_nat.
  - rewrite (proj2 (Z.eqb_neq _ _)) by lia. simpl. rewrite andb_true_r.
    destruct (diffLines !! S k) as [L'|] eqn:Hnext.
    + pose proof (lookup_lt_Some _ _ _ Hnext).
      rewrite (proj2 (Z.ltb_lt _ _)) by lia.
      replace (Z.of_nat k + 1)%Z with (Z.of_nat (S k)) by lia.
      by rewrite array_at_of_nat, Hnext.
    + apply lookup_ge_None in Hnext.
      by rewrite (proj2 (Z.ltb_ge _ _)) by lia.
Qed.

Lemma currentDiffIndex_spec (diffLines : list nat) (c : nat) :
  (currentDiffIndex diffLines c = (-1)%Z /\ Forall (fun d => d < c) diffLines)
  \/ (exists (i d : nat),
        currentDiffIndex diffLines c = Z.of_nat i
        /\ diffLines !! i = Some d /\ c <= d
        /\ Forall (fun y => y < c) (take i diffLines)).
Proof.
  unfold currentDiffIndex, findIndex.
  destruct (findIndex_from_spec (fun line => c <=? line) diffLines 0%Z)
    as [[Hnone Hall]|(i & x & Hi & Hx & Hpx & Hbefore)].
  - left. split; [done|]. eapply Forall_impl; [exact Hall|].
    intros d Hd. simpl in Hd. by apply Nat.leb_gt in Hd.
  - right. exists i, x. repeat split; try done.
    + by apply Nat.leb_le.
    + eapply Forall_impl; [exact Hbefore|].
      intros d Hd. simpl in Hd. by apply Nat.leb_gt in Hd.
Qed.

(** The handlers never pass [undefined], and on strictly ascending
    [diffLines] they move in the direction of their button: "previous"
    lands on a difference strictly before the current line, "next" on one
    strictly after it, or on the first difference when every difference is
    before the current line. *)
Lemma navigator_direction (diffLines : list nat) (c : nat) :
  StronglySorted lt diffLines ->
  (forall x, goToPrevious diffLines c = onNavigate x ->
             exists L, x = Some L /\ L ∈ diffLines /\ L < c)
  /\ (forall x, goToNext diffLines c = onNavigate x ->
                exists L, x = Some L /\ L ∈ diffLines
                          /\ (c < L
                              \/ (Forall (fun d => d < c) diffLines
                                  /\ diffLines !! 0 = Some L))).
Proof.
  intros Hsorted. unfold goToPrevious, goToNext, hasPrevious, hasNext.
  destruct (currentDiffIndex_spec diffLines c)
    as [[-> Hall]|(i & d & -> & Hi & Hd & Hbefore)].
  - split; [done|]. simpl. intros x.
    destruct diffLines as [|d0 rest]; [done|]. simpl.
    rewrite andb_false_r. intros [= <-]. exists d0.
    split; [done|]. split; [left | by right].
  - pose proof (lookup_lt_Some _ _ _ Hi) as Hlt. split; intros x.
    + destruct (0 <? Z.of_nat i)%Z eqn:Hpos; [|done].
      apply Z.ltb_lt in Hpos. intros [= <-].
      replace (Z.of_nat i - 1)%Z with (Z.of_nat (i - 1)) by lia.
      rewrite array_at_of_nat.
      destruct (lookup_lt_is_Some_2 diffLines (i - 1)) as [y Hy]; [lia|].
      exists y. rewrite Hy. repeat split; try done.
      * by apply list_elem_of_lookup_2 in Hy.
      * rewrite Forall_lookup in Hbefore. apply (Hbefore (i - 1)).
        rewrite lookup_take_lt by lia. done.
    + rewrite (proj2 (Z.eqb_neq (Z.of_nat i) (-1))) by lia. simpl.
      rewrite andb_true_r.
      destruct (Z.of_nat i <? Z.of_nat (length diffLines) - 1)%Z eqn:Hn;
        [|done].
      apply Z.ltb_lt in Hn. intros [= <-].
      replace (Z.of_nat i + 1)%Z with (Z.of_nat (S i)) by lia.
      rewrite array_at_of_nat.
      destruct (lookup_lt_is_Some_2 diffLines (S i)) as [y Hy]; [lia|].
      exists y. rewrite Hy. repeat split; try done.
      * by apply list_elem_of_lookup_2 in Hy.
      * left. pose proof (StronglySorted_lt_lookup _ _ _ _ _ Hsorted Hi Hy).
        lia.
Qed.

(** With the current line at or above the first difference, "previous"
    makes no call and "next" passes over the first difference: it goes to
    the second one, and makes no call when there is only one. *)
Lemma navigator_from_top (d0 : nat) (rest : list nat) (c : nat) :
  c <= d0 ->
  goToPrevious (d0 :: rest) c = no_call
  /\ goToNext (d0 :: rest) c
     = match rest with
       | [] => no_call
       | d1 :: _ => onNavigate (Some d1)
       end.
Proof.
  intros Hc. unfold goToPrevious, goToNext, hasPrevious, hasNext.
  unfold currentDiffIndex, findIndex. simpl.
  rewrite (proj2 (Nat.leb_le _ _) Hc). simpl. split; [done|].
  destruct rest as [|d1 rest']; [done|]. simpl.
  by rewrite (proj2 (Z.ltb_lt _ _)) by lia.
Qed.

End Navigator.

(** * The editor's window and the markers *)

Section Editor.

Variable diff_main : string -> string -> list Diff.
Variable diff_cleanupSemantic : list Diff -> list Diff.

Lemma CodeEditor_startIndex_bounds (top : Z) :
  (0 <= top)%Z ->
  (0 <= CodeEditor_startIndex top <= top / 24)%Z
  /\ (top / 24 - 10 <= CodeEditor_startIndex top)%Z.
Proof.
  intros Htop. unfold CodeEditor_startIndex, ITEM_HEIGHT, BUFFER_SIZE.
  pose proof (Z.div_pos top 24 Htop). lia.
Qed.

(** The editor never renders more than 50 rows, whatever the document and
    the scroll offset. *)
Lemma CodeEditor_visibleLines_length (value : string) (top : Z) :
  length (CodeEditor_visibleLines value top) <= 50.
Proof.
  unfold CodeEditor_visibleLines, slice, CodeEditor_endIndex,
    CodeEditor_startIndex, VISIBLE_ITEMS, BUFFER_SIZE.
  rewrite length_take. lia.
Qed.

(** The rendered window shows consecutive lines from [startIndex] on. *)
Lemma CodeEditor_window_row (value : string) (top : Z) (k : nat)
    (x : string) :
  (0 <= top)%Z ->
  (top / 24 <= Z.of_nat k < top / 24 + 30)%Z ->
  split_lines value !! k = Some x ->
  CodeEditor_visibleLines value top
    !! (k - Z.to_nat (CodeEditor_startIndex top))
  = Some x.
Proof.
  intros Htop Hk Hx.
  destruct (CodeEditor_startIndex_bounds top Htop) as [[Hs0 Hs1] Hs2].
  pose proof (lookup_lt_Some _ _ _ Hx) as Hlen.
  unfold CodeEditor_visibleLines, slice, CodeEditor_endIndex,
    VISIBLE_ITEMS, BUFFER_SIZE.
  set (start := CodeEditor_startIndex top) in *.
  rewrite lookup_take_lt by lia.
  rewrite lookup_drop. rewrite <- Hx. f_equal. lia.
Qed.

(** Virtual scrolling keeps every row of the viewport: at a scroll offset
    [top >= 0], each existing line among the 30 from row [top / 24] on is in
    the rendered window, at its distance from [startIndex]. *)
Lemma CodeEditor_viewport_rendered (value : string) (top : Z) (k : nat)
    (x : string) :
  (0 <= top)%Z ->
  (top / 24 <= Z.of_nat k < top / 24 + 30)%Z ->
  split_lines value !! k = Some x ->
  (0 <= CodeEditor_startIndex top <= Z.of_nat k)%Z
  /\ CodeEditor_visibleLines value top
       !! (k - Z.to_nat (CodeEditor_startIndex top))
     = Some x.
Proof.
  intros Htop Hk Hx. split; [|by apply CodeEditor_window_row].
  destruct (CodeEditor_startIndex_bounds top Htop) as [[Hs0 Hs1] Hs2]. lia.
Qed.


(** The two editors mark the same rows: row [k] has a character diff in
    the editor of one document exactly when it has one in the editor of
    the other. *)
Lemma CodeEditor_rows_symmetric (a b : string) (k : nat) :
  is_Some (CodeEditor_diff_at diff_main diff_cleanupSemantic a b k)
  <-> is_Some (CodeEditor_diff_at diff_main diff_cleanupSemantic b a k).
Proof.
  assert (H : forall a b,
    is_Some (CodeEditor_diff_at diff_main diff_cleanupSemantic a b k) ->
    is_Some (CodeEditor_diff_at diff_main diff_cleanupSemantic b a k)).
  { clear a b. intros a b. unfold CodeEditor_diff_at, CodeEditor_lineDiffs.
    rewrite (orb_comm (is_empty_string a)).
    destruct (is_empty_string b || is_empty_string a); [done|].
    rewrite !list_lookup_fmap.
    rewrite (Nat.max_comm (length (split_lines b))).
    destruct (seq 0 _ !! k) as [i|]; simpl; [|done].
    rewrite (String.eqb_sym (line_or_empty (split_lines b) i)).
    by destruct (String.eqb _ _). }
  split; apply H.
Qed.

End Editor.

(** * The store: history and theme *)

Section Store.

Variable diff_main : string -> string -> list Diff.
Variable diff_cleanupSemantic : list Diff -> list Diff.

Lemma insert_newest_Permutation (x : HistoryRecord)
    (l : list HistoryRecord) :
  insert_newest x l ≡ₚ x :: l.
Proof.
  induction l as [|y l IH]; simpl; [done|].
  destruct (timestamp y <=? timestamp x)%Z; [done|].
  rewrite IH. apply Permutation_swap.
Qed.

Lemma sort_newest_first_Permutation (l : list HistoryRecord) :
  sort_newest_first l ≡ₚ l.
Proof.
  unfold sort_newest_first. induction l as [|x l IH]; simpl; [done|].
  by rewrite insert_newest_Permutation, IH.
Qed.

Lemma insert_newest_sorted (x : HistoryRecord) (l : list HistoryRecord) :
  StronglySorted (fun a b => (timestamp b <= timestamp a)%Z) l ->
  StronglySorted (fun a b => (timestamp b <= timestamp a)%Z)
    (insert_newest x l).
Proof.
  induction 1 as [|y l Hl IH Hy]; simpl.
  - repeat constructor.
  - destruct (timestamp y <=? timestamp x)%Z eqn:Hyx.
    + apply Z.leb_le in Hyx. constructor; [by constructor|].
      constructor; [done|].
      eapply Forall_impl; [exact Hy|]. simpl. intros. lia.
    + apply Z.leb_gt in Hyx. constructor; [done|].
      rewrite insert_newest_Permutation. constructor; [lia | done].
Qed.

Lemma sort_newest_first_sorted (l : list HistoryRecord) :
  StronglySorted (fun a b => (timestamp b <= timestamp a)%Z)
    (sort_newest_first l).
Proof.
  unfold sort_newest_first. induction l as [|x l IH]; simpl.
  - constructor.
  - by apply insert_newest_sorted.
Qed.

Lemma StronglySorted_take {A} (R : A -> A -> Prop) (k : nat) (l : list A) :
  StronglySorted R l -> StronglySorted R (take k l).
Proof.
  intros Hl. revert k. induction Hl as [|x l Hl IH Hx]; intros [|k]; simpl;
    try constructor; [apply IH|].
  apply Forall_take. done.
Qed.

(** A successful import leaves at most 20 records, newest first, each one
    either a record of the previous history or a record of the file whose
    id the previous history did not hold. *)
Lemma importHistory_merges (importedHistory : list HistoryRecord)
    (s : CodeStore) :
  (importHistory (Some importedHistory) s).2 = true
  /\ length (history (importHistory (Some importedHistory) s).1) <= 20
  /\ StronglySorted (fun a b => (timestamp b <= timestamp a)%Z)
       (history (importHistory (Some importedHistory) s).1)
  /\ Forall (fun r =>
               r ∈ history s
               \/ (r ∈ importedHistory
                   /\ record_id r ∉ (record_id <$> history s)))
       (history (importHistory (Some importedHistory) s).1).
Proof.
  simpl. split; [done|]. split; [rewrite length_take; lia|]. split.
  - apply StronglySorted_take, sort_newest_first_sorted.
  - apply Forall_forall. intros r Hr.
    apply (fun H => elem_of_sublist _ _ _ H (sublist_take _ 20)) in Hr.
    rewrite sort_newest_first_Permutation in Hr.
    apply elem_of_app in Hr as [Hr|Hr]; [right|by left].
    unfold newRecords in Hr. by apply list_elem_of_filter in Hr as [? ?].
Qed.

Lemma sublist_fmap_record_id (l k : list HistoryRecord) :
  l `sublist_of` k -> (record_id <$> l) `sublist_of` (record_id <$> k).
Proof. induction 1; simpl; by constructor. Qed.

(** Importing keeps ids unique: when no id occurs twice in the previous
    history and none occurs twice in the file, none occurs twice in the
    merged history. *)
Lemma importHistory_unique_ids (importedHistory : list HistoryRecord)
    (s : CodeStore) :
  NoDup (record_id <$> history s) ->
  NoDup (record_id <$> importedHistory) ->
  NoDup (record_id <$> history (importHistory (Some importedHistory) s).1).
Proof.
  intros Hhist Himp. simpl.
  eapply sublist_NoDup; [|apply sublist_fmap_record_id, sublist_take].
  rewrite sort_newest_first_Permutation, fmap_app.
  apply NoDup_app. split; [|split; [|done]].
  - eapply sublist_NoDup; [exact Himp|].
    apply sublist_fmap_record_id, sublist_filter.
  - intros x Hx. apply list_elem_of_fmap in Hx as (r & -> & Hr).
    unfold newRecords in Hr. by apply list_elem_of_filter in Hr as [? _].
Qed.

(** When the new records and the previous history together are at most 20,
    an import loses nothing: the merged history holds exactly the records
    of the file with an unknown id and the previous records. *)
Lemma importHistory_keeps_all (importedHistory : list HistoryRecord)
    (s : CodeStore) :
  length (newRecords importedHistory (history s)) + length (history s) <= 20 ->
  history (importHistory (Some importedHistory) s).1
  ≡ₚ newRecords importedHistory (history s) ++ history s.
Proof.
  intros Hroom. simpl. rewrite take_ge.
  - apply sort_newest_first_Permutation.
  - rewrite sort_newest_first_Permutation, length_app. lia.
Qed.

Lemma saveToHistory_length (now_id now_ts : Z) (s : CodeStore) :
  length (history s) <= 20 ->
  length (history (saveToHistory now_id now_ts s)) <= 20.
Proof.
  intros H. unfold saveToHistory. destruct (_ && _); simpl; [done|].
  rewrite length_take. lia.
Qed.

Lemma perform_history_length (a : Action) (w : CodeStore * Browser) :
  length (history w.1) <= 20 ->
  length (history (perform diff_main diff_cleanupSemantic a w).1) <= 20.
Proof.
  intros H. destruct w as [s b]. destruct a; simpl in *; try done.
  - by apply saveToHistory_length.
  - by apply saveToHistory_length.
  - lia.
  - destruct parsed; simpl; [|done]. rewrite length_take. lia.
Qed.

(** No sequence of store actions makes the history longer than 20 records
    once it is at most 20. *)
Lemma history_never_exceeds_20 (actions : list Action)
    (w : CodeStore * Browser) :
  length (history w.1) <= 20 ->
  length (history (perform_all diff_main diff_cleanupSemantic actions w).1)
  <= 20.
Proof.
  unfold perform_all. revert w.
  induction actions as [|a actions IH]; intros w H; simpl; [done|].
  by apply IH, perform_history_length.
Qed.

(** A comparison of documents that are not both blank leaves them in place
    and puts their record at the head of the history; loading that record
    into any later state of the store restores both documents and the
    language and clears the stored diff. *)
Lemma compareCode_then_loadFromHistory (now_id now_ts : Z)
    (s later : CodeStore) :
  is_empty_string (trim (originalCode s))
  && is_empty_string (trim (modifiedCode s)) = false ->
  exists record,
    head (history (compareCode diff_main diff_cleanupSemantic
                     now_id now_ts s)) = Some record
    /\ timestamp record = now_ts
    /\ originalCode (compareCode diff_main diff_cleanupSemantic
                       now_id now_ts s) = originalCode s
    /\ modifiedCode (compareCode diff_main diff_cleanupSemantic
                       now_id now_ts s) = modifiedCode s
    /\ originalCode (loadFromHistory record later) = originalCode s
    /\ modifiedCode (loadFromHistory record later) = modifiedCode s
    /\ selectedLanguage (loadFromHistory record later) = selectedLanguage s
    /\ lineDiffs (loadFromHistory record later) = []
    /\ diffLines (loadFromHistory record later) = [].
Proof.
  intros Hblank. unfold compareCode, saveToHistory. simpl. rewrite Hblank.
  simpl. eexists. split; [reflexivity|]. done.
Qed.

(** *** The theme *)

Lemma theme_name_dark (dark : bool) :
  String.eqb (theme_name dark) "dark" = dark.
Proof. by destruct dark. Qed.

(** The theme survives a reload: after [toggleTheme], [getInitialTheme]
    reads from the stored item the theme the store now holds, whatever the
    media query says; and toggling twice brings the store back. *)
Lemma toggleTheme_persists (s : CodeStore) (b : Browser)
    (prefersDark : option bool) :
  getInitialTheme (Some (savedTheme (toggleTheme s b).2)) prefersDark
  = isDarkMode (toggleTheme s b).1
  /\ isDarkMode (toggleTheme (toggleTheme s b).1 (toggleTheme s b).2).1
     = isDarkMode s.
Proof.
  simpl. split; [|apply negb_involutive].
  destruct (isDarkMode s); reflexivity.
Qed.

Lemma set_theme_class_spec (dark : bool) (classes : gset string) (c : string) :
  c ∈ set_theme_class (theme_name dark) classes
  <-> c = theme_name dark \/ (c ∈ classes /\ c <> "light" /\ c <> "dark").
Proof.
  unfold set_theme_class.
  rewrite elem_of_union, elem_of_singleton, elem_of_difference.
  rewrite elem_of_union, !elem_of_singleton. tauto.
Qed.

Lemma toggleTheme_agrees (s : CodeStore) (b : Browser) :
  theme_consistent (toggleTheme s b).
Proof.
  unfold theme_consistent. simpl. split; [done|split].
  - rewrite set_theme_class_spec.
    destruct (isDarkMode s); simpl; split; intros H; try done.
    + destruct H as [H|(_ & _ & H)]; done.
    + by left.
  - rewrite set_theme_class_spec.
    destruct (isDarkMode s); simpl; split; intros H; try done.
    + by left.
    + destruct H as [H|(_ & H & _)]; done.
Qed.

(** After [toggleTheme] the store and the browser agree on the theme (the
    stored item names it and the document carries its class and not the
    other one), and every other class of the document is untouched. *)
Lemma toggleTheme_consistent (s : CodeStore) (b : Browser) :
  theme_consistent (toggleTheme s b)
  /\ (forall c, c <> "light" -> c <> "dark" ->
                (c ∈ classList (toggleTheme s b).2 <-> c ∈ classList b)).
Proof.
  split; [apply toggleTheme_agrees|].
  intros c Hl Hd. simpl. rewrite set_theme_class_spec.
  destruct (isDarkMode s); simpl; split.
  - by intros [H|(H & _)].
  - intros H. by right.
  - by intros [H|(H & _)].
  - intros H. by right.
Qed.

Lemma theme_consistent_same_mode (s s' : CodeStore) (b : Browser) :
  isDarkMode s' = isDarkMode s ->
  theme_consistent (s, b) -> theme_consistent (s', b).
Proof. unfold theme_consistent. simpl. by intros ->. Qed.

Lemma saveToHistory_isDarkMode (now_id now_ts : Z) (s : CodeStore) :
  isDarkMode (saveToHistory now_id now_ts s) = isDarkMode s.
Proof. unfold saveToHistory. by destruct (_ && _). Qed.

Lemma perform_theme_consistent (a : Action) (w : CodeStore * Browser) :
  theme_consistent w ->
  theme_consistent (perform diff_main diff_cleanupSemantic a w).
Proof.
  intros H. destruct w as [s b].
  destruct a; try exact H; try apply toggleTheme_agrees; simpl;
    (eapply theme_consistent_same_mode; [|exact H]).
  - unfold compareCode. by rewrite saveToHistory_isDarkMode.
  - apply saveToHistory_isDarkMode.
  - by destruct parsed.
Qed.

(** No sequence of store actions breaks the agreement of the store and the
    browser on the theme. *)
Lemma theme_stays_consistent (actions : list Action)
    (w : CodeStore * Browser) :
  theme_consistent w ->
  theme_consistent (perform_all diff_main diff_cleanupSemantic actions w).
Proof.
  unfold perform_all. revert w.
  induction actions as [|a actions IH]; intros w H; simpl; [done|].
  by apply IH, perform_theme_consistent.
Qed.

End Store.

(** * The markers of the progress bar *)

Section Markers.

Variable diff_main : string -> string -> list Diff.
Variable diff_cleanupSemantic : list Diff -> list Diff.

Lemma split_lines_length (s : string) : 1 <= length (split_lines s).
Proof.
  induction s as [|c s IH]; simpl; [lia|].
  destruct (Ascii.eqb c LF); simpl; [lia|].
  destruct (split_lines s); simpl in *; lia.
Qed.





End Markers.

(** * The alignment against the longest common subsequence *)

Section Optimal.

Variable diff_main : string -> string -> list Diff.
Variable diff_cleanupSemantic : list Diff -> list Diff.

Lemma equal_count_cons (e : LineDiffResult) (l : list LineDiffResult) :
  equal_count (e :: l)
  = (if decide (type e = equal) then 1 else 0) + equal_count l.
Proof.
  unfold equal_count. rewrite filter_cons. by destruct (decide _).
Qed.

Lemma omap_sublist {A} (f : LineDiffResult -> option A)
    (l k : list LineDiffResult) :
  l `sublist_of` k -> omap f l `sublist_of` omap f k.
Proof.
  induction 1 as [|x l k _ IH|x l k _ IH]; simpl.
  - constructor.
  - destruct (f x); [by constructor | done].
  - destruct (f x); [by constructor | done].
Qed.

Lemma equal_entries_lines (r : list LineDiffResult) :
  Forall (entry_justified diff_main diff_cleanupSemantic) r ->
  Forall2 (fun o m => trim_eq o m = true)
    (omap originalLine (filter (fun e => type e = equal) r))
    (omap modifiedLine (filter (fun e => type e = equal) r))
  /\ length (omap originalLine (filter (fun e => type e = equal) r))
     = equal_count r.
Proof.
  unfold equal_count. induction 1 as [|e r He _ IH]; [by split|].
  rewrite filter_cons. destruct (decide (type e = equal)) as [Heq|]; [|done].
  unfold entry_justified in He. rewrite Heq in He.
  destruct He as (o & m & Ho & Hm & Hom). simpl. rewrite Ho, Hm.
  destruct IH as [IH1 IH2]. split; [by constructor|].
  simpl. f_equal. exact IH2.
Qed.

(** What the loop keeps while it emits no [modify] entry: the [equal]
    entries so far and the table value still ahead add up to the table
    value of the whole documents. *)
Lemma backtrack_step_optimal (Os Ms : list string) (dp : dp_table)
    (st : Backtrack) :
  (forall i j, i <= length Os -> j <= length Ms ->
               dp_get dp i j = lcs_len Os Ms i j) ->
  aligned Os Ms st ->
  (Forall (fun e => type e <> modify) (bt_result st) ->
   equal_count (bt_result st) + lcs_len Os Ms (bt_i st) (bt_j st)
   = lcs_len Os Ms (length Os) (length Ms)) ->
  backtrack_cond st = true ->
  Forall (fun e => type e <> modify)
    (bt_result (backtrack_step diff_main diff_cleanupSemantic Os Ms dp st)) ->
  equal_count
    (bt_result (backtrack_step diff_main diff_cleanupSemantic Os Ms dp st))
  + lcs_len Os Ms
      (bt_i (backtrack_step diff_main diff_cleanupSemantic Os Ms dp st))
      (bt_j (backtrack_step diff_main diff_cleanupSemantic Os Ms dp st))
  = lcs_len Os Ms (length Os) (length Ms).
Proof.
  intros Hdp Hal Hinv Hcond.
  pose proof (aligned_i _ _ _ Hal) as Hi.
  pose proof (aligned_j _ _ _ Hal) as Hj.
  destruct st as [i j result].
  unfold backtrack_cond, backtrack_step in *. cbn [bt_i bt_j bt_result] in *.
  destruct i as [|i]; destruct j as [|j]; cbn [Nat.ltb Nat.leb andb orb] in *;
    try discriminate.
  - replace (S j - 1) with j by lia. cbn [bt_i bt_j bt_result].
    intros Hno. apply Forall_cons in Hno as [_ Hno].
    rewrite equal_count_cons. case_decide; try done.
    by specialize (Hinv Hno).
  - replace (S i - 1) with i by lia. cbn [bt_i bt_j bt_result].
    intros Hno. apply Forall_cons in Hno as [_ Hno].
    rewrite equal_count_cons. case_decide; try done.
    specialize (Hinv Hno). by rewrite lcs_len_0_r in *.
  - rewrite lcs_len_S_S in Hinv.
    replace (S i - 1) with i by lia. replace (S j - 1) with j by lia.
    destruct (trim_eq (line_at Os i) (line_at Ms j)) eqn:Heq;
      cbn [bt_i bt_j bt_result].
    + intros Hno. apply Forall_cons in Hno as [_ Hno].
      rewrite equal_count_cons. case_decide; try done.
      specialize (Hinv Hno). lia.
    + destruct (exceeds_threshold _); cbn [bt_i bt_j bt_result].
      * intros Hno. apply Forall_cons in Hno as [Hno _]. by destruct Hno.
      * unfold gtb. rewrite !Hdp by lia.
        destruct (lcs_len Os Ms (S i) j <? lcs_len Os Ms i (S j)) eqn:Hgt;
          cbn [bt_i bt_j bt_result]; intros Hno;
          apply Forall_cons in Hno as [_ Hno];
          rewrite equal_count_cons; case_decide; try done;
          specialize (Hinv Hno).
        -- apply Nat.ltb_lt in Hgt. lia.
        -- apply Nat.ltb_ge in Hgt. lia.
Qed.

(** The [equal] entries of an alignment are never more than the length
    [dp[m][n]] of a longest common subsequence of the two documents, and
    they are exactly as many when the alignment has no [modify] entry. *)
Lemma computeLineDiff_equal_count (Os Ms : list string) :
  equal_count (computeLineDiff diff_main diff_cleanupSemantic Os Ms)
  <= dp_get (build_dp Os Ms) (length Os) (length Ms)
  /\ (Forall (fun e => type e <> modify)
        (computeLineDiff diff_main diff_cleanupSemantic Os Ms) ->
      equal_count (computeLineDiff diff_main diff_cleanupSemantic Os Ms)
      = dp_get (build_dp Os Ms) (length Os) (length Ms)).
Proof.
  split.
  - destruct (equal_entries_lines
                (computeLineDiff diff_main diff_cleanupSemantic Os Ms)
                (backtrack_justified diff_main diff_cleanupSemantic Os Ms))
      as [Hagree <-].
    eapply (build_dp_upper Os Ms (length Os) (length Ms)); [done | done |].
    rewrite !firstn_all.
    destruct (computeLineDiff_aligned diff_main diff_cleanupSemantic Os Ms)
      as [_ _ Ho Hm _ _ _ _]. simpl in Ho, Hm. rewrite drop_0 in Ho, Hm.
    repeat split; [| |exact Hagree].
    + rewrite <- Ho at 2. apply omap_sublist, sublist_filter.
    + rewrite <- Hm at 2. apply omap_sublist, sublist_filter.
  - rewrite (build_dp_lcs_len Os Ms _ _ (le_n _) (le_n _)).
    unfold computeLineDiff.
    set (dp := build_dp Os Ms).
    set (P := fun st =>
      aligned Os Ms st
      /\ (Forall (fun e => type e <> modify) (bt_result st) ->
          equal_count (bt_result st) + lcs_len Os Ms (bt_i st) (bt_j st)
          = lcs_len Os Ms (length Os) (length Ms))).
    assert (Hfinal : P (backtrack diff_main diff_cleanupSemantic Os Ms dp
                          (length Os + length Ms)
                          (mkBacktrack (length Os) (length Ms) []))).
    { apply backtrack_invariant.
      - intros st [Hal Hinv] Hcond. split.
        + by apply backtrack_step_aligned.
        + apply (backtrack_step_optimal Os Ms dp st); try done.
          intros i j Hi Hj. by apply build_dp_lcs_len.
      - split; [apply aligned_init|]. intros _.
        unfold equal_count. simpl. lia. }
    destruct Hfinal as [_ Hinv].
    destruct (backtrack_aligned diff_main diff_cleanupSemantic Os Ms dp
                (length Os + length Ms)
                (mkBacktrack (length Os) (length Ms) []))
      as [_ Hexit]; [apply aligned_init | done |].
    apply backtrack_cond_false in Hexit as [Hi Hj].
    intros Hno. specialize (Hinv Hno). rewrite Hi, Hj in Hinv.
    simpl in Hinv. lia.
Qed.

End Optimal.

(** * Further properties on concrete inputs *)

Lemma computeLineDiff_agreeing_witness :
  Forall2 (fun o m => trim_eq o m = true) ["  a"; "b"] ["a"; "b  "]
  /\ computeLineDiff Dmp.diff_main Dmp.diff_cleanupSemantic
       ["  a"; "b"] ["a"; "b  "]
     = imap (fun k p => equal_entry p.1 p.2 k k)
         (zip ["  a"; "b"] ["a"; "b  "]).
Proof.
  assert (H : Forall2 (fun o m => trim_eq o m = true)
                ["  a"; "b"] ["a"; "b  "]).
  { repeat constructor. }
  split; [exact H|].
  exact (computeLineDiff_agreeing Dmp.diff_main Dmp.diff_cleanupSemantic
           ["  a"; "b"] ["a"; "b  "] H).
Defined.

Lemma build_dp_longest_witness :
  3 <= length ["a"; "b"; "c"] /\ 3 <= length ["a"; "x"; "c"]
  /\ ((exists s t,
         common_subsequence s t (take 3 ["a"; "b"; "c"])
           (take 3 ["a"; "x"; "c"])
         /\ length s
            = dp_get (build_dp ["a"; "b"; "c"] ["a"; "x"; "c"]) 3 3)
      /\ (forall s t,
            common_subsequence s t (take 3 ["a"; "b"; "c"])
              (take 3 ["a"; "x"; "c"]) ->
            length s
            <= dp_get (build_dp ["a"; "b"; "c"] ["a"; "x"; "c"]) 3 3)).
Proof.
  split; [simpl; lia|]. split; [simpl; lia|].
  apply (build_dp_longest ["a"; "b"; "c"] ["a"; "x"; "c"] 3 3); simpl; lia.
Defined.

Lemma navigator_steps_witness :
  StronglySorted lt [2; 5; 9] /\ [2; 5; 9] !! 1 = Some 5
  /\ goToPrevious [2; 5; 9] 5 = onNavigate ([2; 5; 9] !! 0)
  /\ goToNext [2; 5; 9] 5
     = match [2; 5; 9] !! 2 with
       | Some L' => onNavigate (Some L')
       | None => no_call
       end.
Proof.
  assert (H : StronglySorted lt [2; 5; 9]).
  { repeat (constructor; [|repeat (constructor; try lia)]). constructor. }
  split; [exact H|]. split; [reflexivity|].
  exact (navigator_steps [2; 5; 9] 1 5 H eq_refl).
Defined.

Lemma navigator_direction_witness :
  StronglySorted lt [2; 5; 9]
  /\ ((forall x, goToPrevious [2; 5; 9] 6 = onNavigate x ->
                 exists L, x = Some L /\ L ∈ [2; 5; 9] /\ L < 6)
      /\ (forall x, goToNext [2; 5; 9] 6 = onNavigate x ->
                    exists L, x = Some L /\ L ∈ [2; 5; 9]
                              /\ (6 < L
                                  \/ (Forall (fun d => d < 6) [2; 5; 9]
                                      /\ [2; 5; 9] !! 0 = Some L)))).
Proof.
  assert (H : StronglySorted lt [2; 5; 9]).
  { repeat (constructor; [|repeat (constructor; try lia)]). constructor. }
  split; [exact H|].
  exact (navigator_direction [2; 5; 9] 6 H).
Defined.

(** One difference, at position 4, seen from the top: no button navigates. *)
Lemma navigator_from_top_witness :
  0 <= 4
  /\ goToPrevious [4] 0 = no_call
  /\ goToNext [4] 0 = no_call.
Proof.
  split; [lia|]. apply (navigator_from_top 4 [] 0). lia.
Defined.

Lemma CodeEditor_viewport_rendered_witness :
  (0 <= 30)%Z
  /\ (30 / 24 <= Z.of_nat 1 < 30 / 24 + 30)%Z
  /\ split_lines shifted_original !! 1 = Some "foo();"
  /\ (0 <= CodeEditor_startIndex 30 <= Z.of_nat 1)%Z
  /\ CodeEditor_visibleLines shifted_original 30
       !! (1 - Z.to_nat (CodeEditor_startIndex 30))
     = Some "foo();".
Proof.
  assert (H1 : (0 <= 30)%Z) by lia.
  assert (H2 : (30 / 24 <= Z.of_nat 1 < 30 / 24 + 30)%Z)
    by (vm_compute; split; [discriminate | reflexivity]).
  split; [exact H1|]. split; [exact H2|]. split; [reflexivity|].
  exact (CodeEditor_viewport_rendered shifted_original 30 1 "foo();"
           H1 H2 eq_refl).
Defined.


Lemma importHistory_unique_ids_witness :
  NoDup (record_id <$> history (initial_store [older_record] true))
  /\ NoDup (record_id <$> [newer_record; older_record])
  /\ NoDup (record_id
             <$> history (importHistory (Some [newer_record; older_record])
                            (initial_store [older_record] true)).1).
Proof.
  assert (H1 : NoDup (record_id
                        <$> history (initial_store [older_record] true))).
  { simpl. apply NoDup_singleton. }
  assert (H2 : NoDup (record_id <$> [newer_record; older_record])).
  { simpl. apply NoDup_cons. split; [|apply NoDup_singleton].
    rewrite list_elem_of_singleton. discriminate. }
  split; [exact H1|]. split; [exact H2|].
  exact (importHistory_unique_ids [newer_record; older_record]
           (initial_store [older_record] true) H1 H2).
Defined.

Lemma importHistory_keeps_all_witness :
  length (newRecords [newer_record; older_record]
            (history (initial_store [older_record] true)))
  + length (history (initial_store [older_record] true)) <= 20
  /\ history (importHistory (Some [newer_record; older_record])
                (initial_store [older_record] true)).1
     ≡ₚ newRecords [newer_record; older_record]
          (history (initial_store [older_record] true))
        ++ history (initial_store [older_record] true).
Proof.
  assert (H : length (newRecords [newer_record; older_record]
                        (history (initial_store [older_record] true)))
              + length (history (initial_store [older_record] true)) <= 20).
  { vm_compute. lia. }
  split; [exact H|].
  exact (importHistory_keeps_all [newer_record; older_record]
           (initial_store [older_record] true) H).
Defined.

Lemma history_never_exceeds_20_witness :
  length (history (initial_store [older_record] true, dark_browser).1) <= 20
  /\ length
       (history
          (perform_all Dmp.diff_main Dmp.diff_cleanupSemantic
             [call_setOriginalCode "a"; call_compareCode 300 300;
              call_importHistory (Some [newer_record])]
             (initial_store [older_record] true, dark_browser)).1)
     <= 20.
Proof.
  assert (H : length (history (initial_store [older_record] true,
                               dark_browser).1) <= 20).
  { simpl. lia. }
  split; [exact H|].
  exact (history_never_exceeds_20 Dmp.diff_main Dmp.diff_cleanupSemantic
           [call_setOriginalCode "a"; call_compareCode 300 300;
            call_importHistory (Some [newer_record])]
           (initial_store [older_record] true, dark_browser) H).
Defined.

Lemma compareCode_then_loadFromHistory_witness :
  is_empty_string (trim (originalCode replaced_store))
  && is_empty_string (trim (modifiedCode replaced_store)) = false
  /\ exists record,
       head (history (compareCode Dmp.diff_main Dmp.diff_cleanupSemantic
                        7 8 replaced_store)) = Some record
       /\ timestamp record = 8%Z
       /\ originalCode (compareCode Dmp.diff_main Dmp.diff_cleanupSemantic
                          7 8 replaced_store) = originalCode replaced_store
       /\ modifiedCode (compareCode Dmp.diff_main Dmp.diff_cleanupSemantic
                          7 8 replaced_store) = modifiedCode replaced_store
       /\ originalCode (loadFromHistory record (initial_store [] false))
          = originalCode replaced_store
       /\ modifiedCode (loadFromHistory record (initial_store [] false))
          = modifiedCode replaced_store
       /\ selectedLanguage (loadFromHistory record (initial_store [] false))
          = selectedLanguage replaced_store
       /\ lineDiffs (loadFromHistory record (initial_store [] false)) = []
       /\ diffLines (loadFromHistory record (initial_store [] false)) = [].
Proof.
  split; [reflexivity|].
  exact (compareCode_then_loadFromHistory
           Dmp.diff_main Dmp.diff_cleanupSemantic 7 8
           replaced_store (initial_store [] false) eq_refl).
Defined.

Lemma dark_browser_consistent :
  theme_consistent (initial_store [] true, dark_browser).
Proof.
  unfold theme_consistent. simpl. split; [done|].
  rewrite !elem_of_singleton. split; split; done.
Qed.

Lemma theme_stays_consistent_witness :
  theme_consistent (initial_store [] true, dark_browser)
  /\ theme_consistent
       (perform_all Dmp.diff_main Dmp.diff_cleanupSemantic
          [call_toggleTheme; call_setLanguage "python"; call_toggleTheme;
           call_toggleTheme]
          (initial_store [] true, dark_browser)).
Proof.
  split; [exact dark_browser_consistent|].
  exact (theme_stays_consistent Dmp.diff_main Dmp.diff_cleanupSemantic
           [call_toggleTheme; call_setLanguage "python"; call_toggleTheme;
            call_toggleTheme]
           (initial_store [] true, dark_browser) dark_browser_consistent).
Defined.


Example marker_beyond_the_bar :
  (DiffProgressBar_percentage 2
     (Home_totalLines (originalCode replaced_store)
        (modifiedCode replaced_store)) == 200)%Q.
Proof. reflexivity. Qed.
